(** * archival_image_pipeline: review-driven rotation and PDF pagination

    A shallow embedding of [src/create_pdfs.py] and
    [src/apply_corrections.py], followed by the properties of the
    enumeration of images, the review artifact, the correction pipeline,
    the paginator, the archive writer and the rotation workflow. *)

From Stdlib Require Import ZArith NArith Lia Ascii String Sorted OrderedTypeEx.
From Stdlib Require Import Floats.SpecFloat.
From stdpp Require Import base option list gmap strings pretty sorting.

Set Warnings "-register-all,-clear-no-such-hyp".

(* ===================================================================== *)
(** * Part I: the embedding *)
(* ===================================================================== *)

(** ** Python floats

    [st_size * 0.85], [current_size + img_size] and
    [current_size + img_size > max_bytes] are computed on Python floats,
    that is IEEE 754 binary64 with rounding to nearest even.  They are the
    operations of the Standard Library's [SpecFloat] at precision 53 and
    maximal exponent 1024. *)
Module Float64.
Local Open Scope Z_scope.

Definition prec : Z := 53.
Definition emax : Z := 1024.

(** The float of the literal [0], as in [current_size = 0]: adding the
    integer [0] to a float converts it to [0.0] first. *)
Definition zero : spec_float := S754_zero false.

(** Conversion of a Python int to a float ([int * float] converts its
    left operand).  It rounds to nearest even.  CPython raises
    [OverflowError] for an int too large for a float (2^1024 and above);
    a file size is an [off_t], below 2^63, so that branch is not
    reachable from [st_size]. *)
Definition of_int (n : Z) : spec_float := binary_normalize prec emax n 0 false.

Definition add (x y : spec_float) : spec_float := SFadd prec emax x y.
Definition mul (x y : spec_float) : spec_float := SFmul prec emax x y.

(** The literal [0.85]: the binary64 nearest to 85/100, that is
    [0x3FEB333333333333] = 7656119366529843 * 2^-53. *)
Definition c085 : spec_float := S754_finite false 7656119366529843 (-53).

(** The signed mantissa of a finite float. *)
Definition signed (s : bool) (m : positive) : Z := if s then Zneg m else Zpos m.

(** [x > n], [x <= n] and [x == n] for a float [x] and an int [n].
    Python compares a float with an int exactly (no conversion of [n] to
    a float); a NaN compares false with everything. *)
Definition gt_int (x : spec_float) (n : Z) : bool :=
  match x with
  | S754_nan => false
  | S754_infinity s => negb s
  | S754_zero _ => 0 >? n
  | S754_finite s m e =>
      if 0 <=? e then signed s m * 2 ^ e >? n else signed s m >? n * 2 ^ (- e)
  end.

Definition le_int (x : spec_float) (n : Z) : bool :=
  match x with
  | S754_nan => false
  | S754_infinity s => s
  | S754_zero _ => 0 <=? n
  | S754_finite s m e =>
      if 0 <=? e then signed s m * 2 ^ e <=? n else signed s m <=? n * 2 ^ (- e)
  end.

Definition eq_int (x : spec_float) (n : Z) : bool :=
  match x with
  | S754_nan | S754_infinity _ => false
  | S754_zero _ => 0 =? n
  | S754_finite s m e =>
      if 0 <=? e then signed s m * 2 ^ e =? n else signed s m =? n * 2 ^ (- e)
  end.

(** Truth value of a float: false for [0.0] and [-0.0] only. *)
Definition truthy (x : spec_float) : bool :=
  match x with S754_zero _ => false | _ => true end.

(** Classes of floats used in the proofs: [+0.0], a finite float of
    positive sign or [+inf]; and the same without the zero, with an
    exponent that is at least [lo] (-1074 is the least exponent of
    binary64). *)
Definition nonneg (x : spec_float) : Prop :=
  match x with
  | S754_zero false | S754_infinity false | S754_finite false _ _ => True
  | _ => False
  end.

Definition pos_from (lo : Z) (x : spec_float) : Prop :=
  match x with
  | S754_infinity false => True
  | S754_finite false _ e => lo <= e
  | _ => False
  end.

Definition strictly_pos (x : spec_float) : Prop := pos_from (-1074) x.
End Float64.

(** ** Python values and exceptions *)

(** What [json.load] returns: [None], a bool, an int, a float, a str, a
    list or a dict with str keys. *)
Inductive pyval :=
  | PNone
  | PBool (b : bool)
  | PInt (n : Z)
  | PFloat (f : spec_float)
  | PStr (s : string)
  | PList (l : list pyval)
  | PDict (d : gmap string pyval).

Inductive pyerror := TypeError | AttributeError.

Inductive result (A : Type) :=
  | Ok (a : A)
  | Raise (e : pyerror).
Arguments Ok {A} a.
Arguments Raise {A} e.

#[global] Instance result_ret : MRet result := fun A a => Ok a.
#[global] Instance result_bind : MBind result := fun A B f m =>
  match m with Ok a => f a | Raise e => Raise e end.

Definition is_ok {A} (r : result A) : bool :=
  match r with Ok _ => true | Raise _ => false end.

(** [bool(v)]. *)
Definition py_truthy (v : pyval) : bool :=
  match v with
  | PNone => false
  | PBool b => b
  | PInt n => negb (n =? 0)%Z
  | PFloat f => Float64.truthy f
  | PStr s => negb (String.eqb s "")
  | PList l => match l with [] => false | _ => true end
  | PDict d => negb (bool_decide (d = ∅))
  end.

(** [v == n] for an int literal [n]: a bool is an int (0 or 1), a float is
    compared exactly, every other type is unequal to an int. *)
Definition py_eq_int (v : pyval) (n : Z) : bool :=
  match v with
  | PInt m => (m =? n)%Z
  | PBool b => ((if b then 1 else 0) =? n)%Z
  | PFloat f => Float64.eq_int f n
  | _ => false
  end.

(** [isinstance(v, dict)]. *)
Definition is_dict (v : pyval) : bool :=
  match v with PDict _ => true | _ => false end.

(** [len(v)]: defined on str, list and dict. *)
Definition py_len (v : pyval) : result nat :=
  match v with
  | PStr s => Ok (String.length s)
  | PList l => Ok (length l)
  | PDict d => Ok (size d)
  | _ => Raise TypeError
  end.

(** [v.get(key, default)]: only a dict has the method. *)
Definition py_get (v : pyval) (key : string) (dflt : pyval) : result pyval :=
  match v with
  | PDict d => Ok (default dflt (d !! key))
  | _ => Raise AttributeError
  end.

(** A Python set of values read from JSON, given by its members.  The
    program observes such a set through [x in s] for a str [x], through
    its truth value and through [len] (printed only). *)
Definition pyset := list pyval.

Definition hashable (v : pyval) : bool :=
  match v with PList _ | PDict _ => false | _ => true end.

Fixpoint chars (s : string) : list pyval :=
  match s with
  | EmptyString => []
  | String c s' => PStr (String c EmptyString) :: chars s'
  end.

(** [set(v)]: the members of a list (all of them must be hashable), the
    characters of a str, the keys of a dict; other values are not
    iterable. *)
Definition py_set (v : pyval) : result pyset :=
  match v with
  | PList l => if forallb hashable l then Ok l else Raise TypeError
  | PStr s => Ok (chars s)
  | PDict d => Ok (PStr <$> (map_to_list d).*1)
  | _ => Raise TypeError
  end.

(** [x in s] for a str [x]: only a str member can be equal to it. *)
Definition set_mem (x : string) (s : pyset) : bool :=
  existsb (fun v => match v with PStr t => String.eqb x t | _ => false end) s.

(** [bool(s)]. *)
Definition set_truthy (s : pyset) : bool :=
  match s with [] => false | _ => true end.

(** The filenames among the members of a set. *)
Definition set_names (s : pyset) : gset string :=
  list_to_set (omap (fun v => match v with PStr t => Some t | _ => None end) s).

(** ** Images and the rotations of the codec libraries

    The programs hand pixel rotation to OpenCV ([cv2.rotate]) and to Pillow
    ([Image.transpose]).  A decoded image is a raster: its size and the
    colour at each column [x] and row [y], the origin being the top-left
    corner.  The three turns are the documented behaviour of the library
    constants the programs pass. *)
Module Raster.
Definition rgb : Type := N * N * N.

Record image := Image { width : nat; height : nat; pixel : nat -> nat -> rgb }.

(** A quarter turn counter-clockwise: the top-right corner becomes the
    top-left one. *)
Definition quarter_turn_ccw (img : image) : image :=
  {| width := height img; height := width img;
     pixel := fun x y => pixel img (width img - 1 - y) x |}.

Definition half_turn (img : image) : image :=
  {| width := width img; height := height img;
     pixel := fun x y => pixel img (width img - 1 - x) (height img - 1 - y) |}.

(** A quarter turn clockwise: the bottom-left corner becomes the top-left
    one. *)
Definition quarter_turn_cw (img : image) : image :=
  {| width := height img; height := width img;
     pixel := fun x y => pixel img y (height img - 1 - x) |}.
End Raster.
Export Raster.

Module cv2.
Inductive RotateFlags :=
  | ROTATE_90_CLOCKWISE
  | ROTATE_180
  | ROTATE_90_COUNTERCLOCKWISE.

Definition rotate (img : image) (code : RotateFlags) : image :=
  match code with
  | ROTATE_90_CLOCKWISE => quarter_turn_cw img
  | ROTATE_180 => half_turn img
  | ROTATE_90_COUNTERCLOCKWISE => quarter_turn_ccw img
  end.
End cv2.

Module PIL.
(** [Image.Transpose]: the rotations are counter-clockwise, so
    [ROTATE_270] is a quarter turn clockwise. *)
Inductive Transpose := ROTATE_90 | ROTATE_180 | ROTATE_270.

Definition transpose (img : image) (method : Transpose) : image :=
  match method with
  | ROTATE_90 => quarter_turn_ccw img
  | ROTATE_180 => half_turn img
  | ROTATE_270 => quarter_turn_cw img
  end.
End PIL.

(** ** Paths of the input directory *)

(** A member of the input directory: its [name] and the [st_size] that
    [stat()] reports for it. *)
Record path := Path { name : string; st_size : N }.

(** [s.rfind(c)], [None] standing for [-1]. *)
Fixpoint rfind (c : Ascii.ascii) (s : string) : option nat :=
  match s with
  | EmptyString => None
  | String a s' =>
      match rfind c s' with
      | Some i => Some (S i)
      | None => if Ascii.eqb a c then Some 0 else None
      end
  end.

(** [PurePath.suffix]: the name from its last dot on, when that dot is
    neither the first nor the last character. *)
Definition suffix (nm : string) : string :=
  match rfind "."%char nm with
  | Some i =>
      if (0 <? i) && (i <? String.length nm - 1)
      then String.substring i (String.length nm - i) nm
      else ""
  | None => ""
  end.

(** [name] matches the pattern ["*" ++ ext] of [Path.glob]: it ends with
    [ext], case-sensitively. *)
Definition ends_with (nm ext : string) : bool :=
  (String.length ext <=? String.length nm) &&
  String.eqb
    (String.substring (String.length nm - String.length ext) (String.length ext) nm)
    ext.

Definition glob (ext : string) (dir : list path) : list path :=
  filter (fun f => ends_with (name f) ext = true) dir.

(** [sorted(files, key=lambda x: x.name)]: a stable sort on the names,
    compared as Python compares str (lexicographically, by code).  Paths of
    one directory compare as their names do, so this is also [sorted] on
    the paths themselves. *)
Definition name_le (f g : path) : bool := String.leb (name f) (name g).

Fixpoint insert_by_name (f : path) (l : list path) : list path :=
  match l with
  | [] => [f]
  | g :: l' => if name_le f g then f :: l else g :: insert_by_name f l'
  end.

Definition sorted_by_name (l : list path) : list path :=
  foldr insert_by_name [] l.

(** An image and the rotation the review gives it. *)
Definition entry : Type := path * pyval.
Definition section : Type := list entry.

(** ** [create_pdfs.py] *)
Module CreatePdfs.

Definition extensions : list string :=
  [".jpeg"; ".jpg"; ".png"; ".JPEG"; ".JPG"; ".PNG"].

(** [get_image_files]; [dir] is what [Path(input_dir).iterdir()] yields,
    in any order. *)
Definition get_image_files (dir : list path) : list path :=
  sorted_by_name (filter (fun f => suffix (name f) ∈ extensions) dir).

Definition rotate_image (img : image) (degrees : pyval) : image :=
  if py_eq_int degrees 90 then PIL.transpose img PIL.ROTATE_90
  else if py_eq_int degrees 180 then PIL.transpose img PIL.ROTATE_180
  else if py_eq_int degrees 270 then PIL.transpose img PIL.ROTATE_270
  else img.

(** The page made of a decoded image: [if rotation: img =
    rotate_image(img, rotation)]. *)
Definition page (img : image) (rotation : pyval) : image :=
  if py_truthy rotation then rotate_image img rotation else img.

(** *** The review data *)

Record review := Review {
  corrections : pyval;
  section_breaks : pyset;
  discards : pyset
}.

(** [isinstance(data, dict) and 'corrections' in data]. *)
Definition has_corrections (data : pyval) : bool :=
  match data with
  | PDict d => bool_decide (is_Some (d !! "corrections"))
  | _ => false
  end.

(** Lines 103-119 of [main]: [file] is the parsed content of the review
    file, [None] when the file does not exist.  The f-string of the
    report line evaluates [len(corrections)]. *)
Definition load_review (file : option pyval) : result review :=
  match file with
  | None => Ok (Review (PDict ∅) [] [])
  | Some data =>
      r ← (if has_corrections data then
             rotations ← py_get data "corrections" (PDict ∅);
             breaks ← py_get data "sectionBreaks" (PList []) ≫= py_set;
             dropped ← py_get data "discards" (PList []) ≫= py_set;
             Ok (Review rotations breaks dropped)
           else Ok (Review data [] []));
      _ ← py_len (corrections r);
      Ok r
  end.

(** *** Filtering the discards (lines 126-131) *)
Fixpoint filter_discards (corrections : pyval) (discards : pyset)
    (all_images : list path) : result (list entry) :=
  match all_images with
  | [] => Ok []
  | img_path :: rest =>
      if negb (set_mem (name img_path) discards) then
        rotation ← py_get corrections (name img_path) (PInt 0);
        images ← filter_discards corrections discards rest;
        Ok ((img_path, rotation) :: images)
      else filter_discards corrections discards rest
  end.

(** *** Splitting into sections (lines 140-174) *)

Definition is_nil {A} (l : list A) : bool :=
  match l with [] => true | _ => false end.

(** One turn of the loop over [images] with manual section breaks; the
    state is [(sections, current_section)]. *)
Definition manual_step (section_breaks : pyset)
    (st : list section * section) (e : entry) : list section * section :=
  let '(sections, current_section) := st in
  if set_mem (name e.1) section_breaks && negb (is_nil current_section)
  then (sections ++ [current_section], [e])
  else (sections, current_section ++ [e]).

Definition manual_split (section_breaks : pyset) (images : list entry)
    : list section :=
  let '(sections, current_section) :=
    fold_left (manual_step section_breaks) images ([], []) in
  if is_nil current_section then sections else sections ++ [current_section].

(** [img_path.stat().st_size * 0.85]. *)
Definition img_size (e : entry) : spec_float :=
  Float64.mul (Float64.of_int (Z.of_N (st_size e.1))) Float64.c085.

(** One turn of the loop of the automatic split; the state is
    [(sections, current_section, current_size)]. *)
Definition auto_step (max_bytes : Z)
    (st : list section * section * spec_float) (e : entry)
    : list section * section * spec_float :=
  let '(sections, current_section, current_size) := st in
  if Float64.gt_int (Float64.add current_size (img_size e)) max_bytes
     && negb (is_nil current_section)
  then (sections ++ [current_section], [e],
        Float64.add Float64.zero (img_size e))
  else (sections, current_section ++ [e],
        Float64.add current_size (img_size e)).

Definition auto_split (max_bytes : Z) (images : list entry) : list section :=
  let '(sections, current_section, _) :=
    fold_left (auto_step max_bytes) images ([], [], Float64.zero) in
  if is_nil current_section then sections else sections ++ [current_section].

(** The choice of the mode; [max_size] is the [--max-size] option, in
    megabytes. *)
Definition split_sections (section_breaks : pyset) (max_size : Z)
    (images : list entry) : list section :=
  if set_truthy section_breaks
  then manual_split section_breaks images
  else auto_split (max_size * 1024 * 1024) images.

(** [main] up to the sections: the review is loaded, the directory is
    read, the discards are dropped, and nothing is split when no image is
    left. *)
Definition plan (file : option pyval) (dir : list path) (max_size : Z)
    : result (list section) :=
  r ← load_review file;
  images ← filter_discards (corrections r) (discards r) (get_image_files dir);
  if is_nil images then Ok []
  else Ok (split_sections (section_breaks r) max_size images).

(** *** [create_pdf] *)
Section create_pdf.
(** [Image.open(img_path)], [img.seek(0)] and [img.convert('RGB')]:
    the decoded image, or [None] when one of them raises. *)
Variable open_rgb : path -> option image.

Record loaded := Loaded {
  first_image : option image;
  images : list image;
  warnings : list string
}.

Definition load_step (st : loaded) (e : entry) : loaded :=
  match open_rgb e.1 with
  | Some img =>
      let img := page img e.2 in
      match first_image st with
      | None => Loaded (Some img) (images st) (warnings st)
      | Some _ => Loaded (first_image st) (images st ++ [img]) (warnings st)
      end
  | None => Loaded (first_image st) (images st) (warnings st ++ [name e.1])
  end.

Record outcome := Outcome {
  returned : nat;
  saved : option (list image);
  warned : list string
}.

(** The value returned, the pages of the document saved at
    [output_path] ([None] when no file is written) and the files
    warned about.  [first_image.save] is the write of the pages. *)
Definition create_pdf (image_data : section) : outcome :=
  if is_nil image_data then Outcome 0 None []
  else
    let st := fold_left load_step image_data (Loaded None [] []) in
    match first_image st with
    | Some first => Outcome (length (images st) + 1) (Some (first :: images st)) (warnings st)
    | None => Outcome 0 None (warnings st)
    end.
End create_pdf.
End CreatePdfs.

(** ** [apply_corrections.py] *)
Module ApplyCorrections.

Definition rotate_image (img : image) (angle : pyval) : image :=
  if py_eq_int angle 90 then cv2.rotate img cv2.ROTATE_90_COUNTERCLOCKWISE
  else if py_eq_int angle 180 then cv2.rotate img cv2.ROTATE_180
  else if py_eq_int angle 270 then cv2.rotate img cv2.ROTATE_90_CLOCKWISE
  else img.

(** Lines 50-55: the four globs, concatenated and sorted. *)
Definition get_images (dir : list path) : list path :=
  sorted_by_name
    (glob ".JPEG" dir ++ glob ".jpeg" dir ++ glob ".jpg" dir ++ glob ".png" dir).

Record stats := Stats { rotated : nat; copied : nat; skipped : nat; errors : nat }.

(** What is written under the output directory for a filename. *)
Inductive output :=
  | Encoded (img : image)
  | Copy (src : path).

Inductive imread_result :=
  | ImreadRaises
  | ImreadNone
  | ImreadOk (img : image).

Section main_loop.
(** [cv2.imread], and whether [cv2.imwrite] raises for a file. *)
Variable imread : path -> imread_result.
Variable imwrite_raises : path -> bool.
(** The dict read from the corrections file and [--copy-unchanged]. *)
Variable corrections : gmap string pyval.
Variable copy_unchanged : bool.

(** One turn of the loop of lines 59-91; the state is the counters and
    the files written so far. *)
Definition step (st : stats * list (string * output)) (img_path : path)
    : stats * list (string * output) :=
  let '(s, out) := st in
  let filename := name img_path in
  match corrections !! filename with
  | Some angle =>
      match imread img_path with
      | ImreadNone | ImreadRaises =>
          (Stats (rotated s) (copied s) (skipped s) (errors s + 1), out)
      | ImreadOk img =>
          let rotated_img := rotate_image img angle in
          if imwrite_raises img_path
          then (Stats (rotated s) (copied s) (skipped s) (errors s + 1), out)
          else (Stats (rotated s + 1) (copied s) (skipped s) (errors s),
                out ++ [(filename, Encoded rotated_img)])
      end
  | None =>
      if copy_unchanged
      then (Stats (rotated s) (copied s + 1) (skipped s) (errors s),
            out ++ [(filename, Copy img_path)])
      else (Stats (rotated s) (copied s) (skipped s + 1) (errors s), out)
  end.

Definition run (images : list path) : stats * list (string * output) :=
  fold_left step images (Stats 0 0 0 0, []).
End main_loop.
End ApplyCorrections.

(** ** The loops of the paginator, by recursion on the entries left

    [manual_chunks] and [auto_chunks] give the sections that the loops of
    [manual_split] and [auto_split] still produce from a state of the loop
    and the entries not read yet; [loop_manual] and [loop_auto] below prove
    that they are the loops. *)
Fixpoint manual_chunks (section_breaks : pyset) (current_section : section)
    (l : list entry) : list section :=
  match l with
  | [] => if CreatePdfs.is_nil current_section then [] else [current_section]
  | e :: l' =>
      if set_mem (name e.1) section_breaks && negb (CreatePdfs.is_nil current_section)
      then current_section :: manual_chunks section_breaks [e] l'
      else manual_chunks section_breaks (current_section ++ [e]) l'
  end.

Fixpoint auto_chunks (max_bytes : Z) (current_section : section)
    (current_size : spec_float) (l : list entry) : list section :=
  match l with
  | [] => if CreatePdfs.is_nil current_section then [] else [current_section]
  | e :: l' =>
      if Float64.gt_int (Float64.add current_size (CreatePdfs.img_size e)) max_bytes
         && negb (CreatePdfs.is_nil current_section)
      then current_section ::
           auto_chunks max_bytes [e] (Float64.add Float64.zero (CreatePdfs.img_size e)) l'
      else auto_chunks max_bytes (current_section ++ [e])
             (Float64.add current_size (CreatePdfs.img_size e)) l'
  end.

(** The size of a section as the automatic split accumulates it: the
    estimates of its entries, added from left to right, from [0]. *)
Definition section_size (s : section) : spec_float :=
  fold_left (fun acc e => Float64.add acc (CreatePdfs.img_size e)) s Float64.zero.

(** A section respects the bound of the automatic split: its size is at
    most [max_bytes], or it is one entry whose own estimate exceeds
    [max_bytes]. *)
Definition within_bound (max_bytes : Z) (s : section) : Prop :=
  Float64.le_int (section_size s) max_bytes = true \/
  exists e, s = [e] /\ Float64.gt_int (CreatePdfs.img_size e) max_bytes = true.

(** No two entries in a row are both files of size zero. *)
Fixpoint no_two_empty_in_a_row (l : list entry) : bool :=
  match l with
  | e1 :: l' =>
      match l' with
      | e2 :: _ => negb ((st_size e1.1 =? 0)%N && (st_size e2.1 =? 0)%N)
      | [] => true
      end && no_two_empty_in_a_row l'
  | [] => true
  end.

(** The entries that carry a section-break marker. *)
Definition is_break (section_breaks : pyset) (e : entry) : bool :=
  set_mem (name e.1) section_breaks.

(** A list of sections is a partition of [images]: no section is empty and
    the sections, put end to end, are [images]. *)
Definition partition_of (images : list entry) (sections : list section) : Prop :=
  concat sections = images /\ Forall (fun s => s <> []) sections.

(** A section that a break marker opened, and a section where no entry
    after the first carries a break marker. *)
Definition starts_with_break (section_breaks : pyset) (s : section) : Prop :=
  match s with
  | e :: _ => is_break section_breaks e = true
  | [] => False
  end.

Definition break_only_at_head (section_breaks : pyset) (s : section) : Prop :=
  Forall (fun e => is_break section_breaks e = false) (tail s).

(** ** Image extensions, compared without case

    The reading of the interface description: a member is an image when its
    extension is [.jpeg], [.jpg] or [.png] in any mix of cases. *)
Definition lower_ascii (c : Ascii.ascii) : Ascii.ascii :=
  let n := nat_of_ascii c in
  if (65 <=? n) && (n <=? 90) then ascii_of_nat (n + 32) else c.

Fixpoint lower (s : string) : string :=
  match s with
  | EmptyString => EmptyString
  | String c s' => String (lower_ascii c) (lower s')
  end.

Definition image_extension_ci (nm : string) : Prop :=
  lower (suffix nm) ∈ [".jpeg"; ".jpg"; ".png"].

(** The name ends in [.jpeg], [.jpg] or [.png] in any mix of cases. *)
Definition image_ending_ci (nm : string) : Prop :=
  ends_with (lower nm) ".jpeg" = true \/
  ends_with (lower nm) ".jpg" = true \/
  ends_with (lower nm) ".png" = true.

(** The order of the enumerations: by name. *)
Definition by_name (f g : path) : Prop := name_le f g = true.

(** ** One turn of the rotation loop counts one image once *)
Definition one_more (s s' : ApplyCorrections.stats) : Prop :=
  let '(ApplyCorrections.Stats r c k e) := s in
  s' = ApplyCorrections.Stats (r + 1) c k e \/
  s' = ApplyCorrections.Stats r (c + 1) k e \/
  s' = ApplyCorrections.Stats r c (k + 1) e \/
  s' = ApplyCorrections.Stats r c k (e + 1).

Definition total (s : ApplyCorrections.stats) : nat :=
  ApplyCorrections.rotated s + ApplyCorrections.copied s
  + ApplyCorrections.skipped s + ApplyCorrections.errors s.

(** ** The pages of a section

    The pages of the entries that decode and the names of those that do
    not, in the order of the section; [open_rgb] is the decoder of
    [create_pdf]. *)
Definition decoded (open_rgb : path -> option image) (image_data : list entry)
    : list image :=
  omap (fun e : entry => (fun img => CreatePdfs.page img e.2) <$> open_rgb e.1)
    image_data.

Definition undecoded (open_rgb : path -> option image) (image_data : list entry)
    : list string :=
  (fun e : entry => name e.1)
    <$> filter (fun e : entry => open_rgb e.1 = None) image_data.

(** The pages held by a state of the loop of [create_pdf]. *)
Definition pages (st : CreatePdfs.loaded) : list image :=
  match CreatePdfs.first_image st with
  | Some first => first :: CreatePdfs.images st
  | None => []
  end.

(** ** The rest of [main] in [create_pdfs.py] (lines 178-196) *)

(** How a run of [main] can end other than by returning: an exception
    of the review or of the correction pipeline, or the [IndexError] of
    [section[0]] on an empty section. *)
Inductive crash :=
  | Uncaught (e : pyerror)
  | IndexError.

(** Line 180: [section[0][0].name] and [section[-1][0].name], the names
    that the report of a section shows; [None] is the [IndexError] of an
    empty section. *)
Definition section_info (s : section) : option (string * string) :=
  match s, last s with
  | first :: _, Some final => Some (name first.1, name final.1)
  | _, _ => None
  end.

(** [f"{args.prefix}_part{part_num}.pdf"], the name of the document under
    the output directory. *)
Definition part_name (prefix : string) (part_num : nat) : string :=
  prefix +:+ "_part" +:+ pretty part_num +:+ ".pdf".

(** Lines 184-193: [create_pdf] on each section, [part_num] being [i + 1]
    for the section at index [i] of [enumerate(sections)]. *)
Definition write_pdfs (open_rgb : path -> option image) (prefix : string)
    (sections : list section) : list (string * CreatePdfs.outcome) :=
  imap (fun i s => (part_name prefix (i + 1), CreatePdfs.create_pdf open_rgb s))
    sections.

(** The documents that exist after the loop, with their pages. *)
Definition documents (written : list (string * CreatePdfs.outcome))
    : list (string * list image) :=
  omap (fun w : string * CreatePdfs.outcome =>
          (fun p => (w.1, p)) <$> CreatePdfs.saved w.2) written.

(** [main] of [create_pdfs.py]: the sections are planned, reported and
    written.  With no image left, [main] returns before the split: so does
    this, through the empty list of sections. *)
Definition create_pdfs_main (open_rgb : path -> option image)
    (file : option pyval) (dir : list path) (prefix : string) (max_size : Z)
    : crash + list (string * CreatePdfs.outcome) :=
  match CreatePdfs.plan file dir max_size with
  | Raise e => inl (Uncaught e)
  | Ok sections =>
      match mapM section_info sections with
      | None => inl IndexError
      | Some _ => inr (write_pdfs open_rgb prefix sections)
      end
  end.

(** The entries that the correction pipeline keeps, for rotations [d]. *)
Definition kept (d : gmap string pyval) (discards : pyset)
    (all_images : list path) : list entry :=
  (fun f => (f, default (PInt 0) (d !! name f)))
    <$> filter (fun f => set_mem (name f) discards = false) all_images.

(** ** Images up to their pixels

    Two images are the same when they have the same size and the same
    colour at every position inside it. *)
Definition same_image (a b : image) : Prop :=
  width a = width b /\ height a = height b /\
  forall x y, x < width a -> y < height a -> pixel a x y = pixel b x y.

(** ** Sections that end only where they must

    In a list of sections of the automatic split, each section but the
    last is closed by the entry that opens the next one: that entry, added
    to the size of the section, exceeds [max_bytes]. *)
Fixpoint closed_by_overflow (max_bytes : Z) (sections : list section) : Prop :=
  match sections with
  | s :: rest =>
      match rest with
      | (e :: _) :: _ =>
          Float64.gt_int (Float64.add (section_size s) (CreatePdfs.img_size e))
            max_bytes = true
      | [] :: _ => False
      | [] => True
      end /\ closed_by_overflow max_bytes rest
  | [] => True
  end.

(** ** The floats of the program, as scaled integers

    A float of the program is [+0.0], [+inf] or a finite positive float
    whose exponent is at least -1074 and whose mantissa has at most 53
    bits; [scaled m e] is the value [m * 2^e] of such a float in units of
    [2^-1074]. *)
Definition float_ok (x : spec_float) : Prop :=
  match x with
  | S754_zero false | S754_infinity false => True
  | S754_finite false m e => (-1074 <= e /\ Zpos m < 2 ^ 53)%Z
  | _ => False
  end.

Definition scaled (m e : Z) : Z := (m * 2 ^ (e + 1074))%Z.

(** ** What the rotation loop writes *)

(** The file written for [img_path] by one turn of the loop, if any. *)
Definition written_for (imread : path -> ApplyCorrections.imread_result)
    (imwrite_raises : path -> bool) (corrections : gmap string pyval)
    (copy_unchanged : bool) (img_path : path)
    : option (string * ApplyCorrections.output) :=
  match corrections !! name img_path with
  | Some angle =>
      match imread img_path with
      | ApplyCorrections.ImreadOk img =>
          if imwrite_raises img_path then None
          else Some (name img_path,
                     ApplyCorrections.Encoded (ApplyCorrections.rotate_image img angle))
      | _ => None
      end
  | None => if copy_unchanged then Some (name img_path, ApplyCorrections.Copy img_path)
            else None
  end.

(** ** Extensions

    An extension: a dot and then some characters with no other dot. *)
Definition dotted (ext : string) : Prop :=
  exists rest, ext = String "." rest /\ rest <> "" /\ rfind "." rest = None.

(* ===================================================================== *)
(** * Part II: properties *)
(* ===================================================================== *)

(** ** The turns of a raster *)

(** A quarter turn one way and then the other gives back every pixel of
    the image, and so do two half turns. *)
Lemma quarter_turns_cancel (img : image) (x y : nat) :
  x < width img -> y < height img ->
  pixel (quarter_turn_cw (quarter_turn_ccw img)) x y = pixel img x y /\
  pixel (half_turn (half_turn img)) x y = pixel img x y.
Proof.
  intros Hx Hy. cbn. split; f_equal; lia.
Qed.

(** ** Rounding never changes the sign and never reaches zero from above *)
Section float64_facts.
Import Float64.
Local Open Scope Z_scope.

Lemma digits2_pos_lower p : 2 ^ (Zpos (digits2_pos p) - 1) <= Zpos p.
Proof.
  induction p as [p IH|p IH|]; cbn [digits2_pos]; try (cbn; lia).
  all: rewrite Pos2Z.inj_succ;
    replace (Z.succ (Z.pos (digits2_pos p)) - 1)
      with (Z.succ (Z.pos (digits2_pos p) - 1)) by lia;
    rewrite Z.pow_succ_r by lia; lia.
Qed.

Lemma shr_m_of_loc m l : shr_m (shr_record_of_loc m l) = m.
Proof. destruct l as [|[]]; reflexivity. Qed.

Lemma shr_1_half r : 0 <= shr_m r -> shr_m (shr_1 r) = shr_m r / 2.
Proof.
  destruct r as [m r s]; cbn [shr_m]; intros Hm.
  rewrite <- Z.div2_div.
  destruct m as [|[p|p|]|p]; try reflexivity; lia.
Qed.

Lemma iter_shr_1 p : forall r, 0 <= shr_m r ->
  shr_m (SpecFloat.iter_pos shr_1 p r) = shr_m r / 2 ^ Zpos p.
Proof.
  induction p as [p IH|p IH|]; intros r Hr; cbn [SpecFloat.iter_pos].
  - assert (H1 : 0 <= shr_m (shr_1 r))
      by (rewrite shr_1_half by assumption; apply Z.div_pos; lia).
    assert (H2 : 0 <= shr_m (SpecFloat.iter_pos shr_1 p (shr_1 r)))
      by (rewrite IH by assumption; apply Z.div_pos; lia).
    rewrite IH, IH, shr_1_half by assumption.
    rewrite !Z.div_div by lia. f_equal.
    replace (Z.pos p~1) with (1 + Z.pos p + Z.pos p) by lia.
    rewrite !Z.pow_add_r by lia. change (2 ^ 1) with 2. ring.
  - assert (H2 : 0 <= shr_m (SpecFloat.iter_pos shr_1 p r))
      by (rewrite IH by assumption; apply Z.div_pos; lia).
    rewrite IH, IH by assumption.
    rewrite !Z.div_div by lia. f_equal.
    replace (Z.pos p~0) with (Z.pos p + Z.pos p) by lia.
    rewrite !Z.pow_add_r by lia. ring.
  - rewrite shr_1_half by assumption. reflexivity.
Qed.

(** Truncating to the precision keeps a positive mantissa positive when
    the exponent is in range, and never lowers the exponent. *)
Lemma shr_fexp_positive m e l r e' :
  0 < m -> -1074 <= e -> shr_fexp prec emax m e l = (r, e') ->
  0 < shr_m r /\ e <= e'.
Proof.
  intros Hm He. destruct m as [|p|p]; try lia.
  unfold shr_fexp, shr, fexp, emin, prec, emax. cbn [Zdigits2].
  pose proof (digits2_pos_lower p) as Hd.
  destruct (Z.max (Z.pos (digits2_pos p) + e - 53) (3 - 1024 - 53) - e)
    as [|q|q] eqn:Hn;
    intros [= <- <-]; rewrite ?shr_m_of_loc; try (split; lia).
  rewrite iter_shr_1, shr_m_of_loc by (rewrite shr_m_of_loc; lia).
  split; [|lia].
  apply Z.div_str_pos. split; [lia|].
  apply Z.le_trans with (2 ^ (Z.pos (digits2_pos p) - 1)); [|assumption].
  apply Z.pow_le_mono_r; lia.
Qed.

Lemma shr_fexp_nonneg m e l r e' :
  0 <= m -> shr_fexp prec emax m e l = (r, e') -> 0 <= shr_m r.
Proof.
  intros Hm. unfold shr_fexp, shr.
  destruct (fexp prec emax (Zdigits2 m + e) - e) as [|q|q];
    intros [= <- <-]; rewrite ?shr_m_of_loc; try lia.
  rewrite iter_shr_1, shr_m_of_loc by (rewrite shr_m_of_loc; lia).
  apply Z.div_pos; lia.
Qed.

Lemma round_nearest_even_ge m l : m <= round_nearest_even m l.
Proof. destruct l as [|[]]; cbn; try destruct (Z.even m); lia. Qed.

Lemma binary_round_aux_nonneg m e l :
  0 <= m -> nonneg (binary_round_aux prec emax false m e l).
Proof.
  intros Hm. unfold binary_round_aux.
  destruct (shr_fexp prec emax m e l) as [r1 e1] eqn:H1.
  apply shr_fexp_nonneg in H1; [|assumption].
  pose proof (round_nearest_even_ge (shr_m r1) (loc_of_shr_record r1)) as Hr.
  destruct (shr_fexp prec emax _ e1 loc_Exact) as [r2 e2] eqn:H2.
  apply shr_fexp_nonneg in H2; [|lia].
  destruct (shr_m r2) as [|q|q]; try exact I; try lia.
  destruct (e2 <=? emax - prec); exact I.
Qed.

Lemma binary_round_aux_positive m e l :
  0 < m -> -1074 <= e -> pos_from e (binary_round_aux prec emax false m e l).
Proof.
  intros Hm He. unfold binary_round_aux.
  destruct (shr_fexp prec emax m e l) as [r1 e1] eqn:H1.
  apply shr_fexp_positive in H1; [|assumption..]. destruct H1 as [Hr1 He1].
  pose proof (round_nearest_even_ge (shr_m r1) (loc_of_shr_record r1)) as Hr.
  destruct (shr_fexp prec emax _ e1 loc_Exact) as [r2 e2] eqn:H2.
  apply shr_fexp_positive in H2; [|lia..]. destruct H2 as [Hr2 He2].
  destruct (shr_m r2) as [|q|q]; try lia.
  destruct (e2 <=? emax - prec); cbn; [lia|exact I].
Qed.

Lemma pos_from_weaken lo lo' x : lo' <= lo -> pos_from lo x -> pos_from lo' x.
Proof. destruct x as [[]|[]| |[] m e]; cbn; try tauto. lia. Qed.

Lemma binary_round_positive m e :
  -1074 <= e ->
  pos_from (Z.max (e - 52) (-1074)) (binary_round prec emax false m e).
Proof.
  intros He. unfold binary_round, shl_align.
  destruct (fexp prec emax (Z.pos (digits2_pos m) + e) - e) as [|q|q] eqn:Hn;
    (eapply pos_from_weaken; [|apply binary_round_aux_positive]);
    unfold fexp, emin, prec, emax in *; lia.
Qed.

Lemma binary_round_nonneg m e : nonneg (binary_round prec emax false m e).
Proof.
  unfold binary_round. destruct (shl_align _ _ _) as [mz ez].
  apply binary_round_aux_nonneg. lia.
Qed.

Lemma strictly_pos_nonneg x : strictly_pos x -> nonneg x.
Proof. destruct x as [[]|[]| |[] m e]; cbn; tauto. Qed.

Lemma add_nonneg x y : nonneg x -> nonneg y -> nonneg (add x y).
Proof.
  destruct x as [[]|[]| |[] mx ex], y as [[]|[]| |[] my ey]; cbn; try tauto.
  intros _ _. apply binary_round_nonneg.
Qed.

Lemma add_zero_l x : nonneg x -> add zero x = x.
Proof. destruct x as [[]|[]| |[] m e]; cbn; tauto. Qed.

(** A sum of floats that are [+0.0] or positive is positive as soon as
    one of them is: an addition does not underflow. *)
Lemma add_strictly_pos x y :
  x = zero \/ strictly_pos x -> y = zero \/ strictly_pos y ->
  strictly_pos x \/ strictly_pos y -> strictly_pos (add x y).
Proof.
  unfold strictly_pos, zero. intros Hx Hy H.
  destruct x as [[]|[]| |[] mx ex], y as [[]|[]| |[] my ey]; cbn in *;
    repeat match goal with H : _ \/ _ |- _ => destruct H end;
    try discriminate; try tauto.
  all: eapply pos_from_weaken; [|apply binary_round_positive]; lia.
Qed.

Lemma of_int_nonneg n : 0 <= n -> nonneg (of_int n).
Proof.
  destruct n as [|p|p]; intros Hn; try lia; [exact I|].
  apply binary_round_nonneg.
Qed.

Lemma of_int_positive n : 0 < n -> pos_from (-52) (of_int n).
Proof.
  destruct n as [|p|p]; intros Hn; try lia.
  apply (binary_round_positive p 0). lia.
Qed.

Lemma mul_c085_nonneg x : nonneg x -> nonneg (mul x c085).
Proof.
  destruct x as [[]|[]| |[] m e]; cbn; try tauto.
  intros _. apply binary_round_aux_nonneg. lia.
Qed.

Lemma mul_c085_positive x : pos_from (-52) x -> strictly_pos (mul x c085).
Proof.
  destruct x as [[]|[]| |[] m e]; cbn; try tauto.
  intros He. eapply pos_from_weaken; [|apply binary_round_aux_positive]; lia.
Qed.

(** On the floats of the program, [not (x > n)] is [x <= n]. *)
Lemma not_gt_le_int x n : nonneg x -> gt_int x n = false -> le_int x n = true.
Proof.
  destruct x as [[]|[]| |[] m e]; cbn; try tauto; try discriminate; intros _.
  - lia.
  - destruct (0 <=? e); lia.
Qed.

Lemma gt_le_int_excl x n : gt_int x n = true -> le_int x n = false.
Proof.
  destruct x as [s|[]| |s m e]; cbn; try discriminate; try reflexivity.
  - lia.
  - destruct (0 <=? e); lia.
Qed.

Lemma strictly_pos_gt_int x n : strictly_pos x -> n <= 0 -> gt_int x n = true.
Proof.
  destruct x as [[]|[]| |[] m e]; cbn; try tauto; intros _ Hn.
  destruct (0 <=? e) eqn:He.
  - assert (0 < 2 ^ e) by (apply Z.pow_pos_nonneg; lia).
    assert (0 < Z.pos m * 2 ^ e) by (apply Z.mul_pos_pos; lia). lia.
  - assert (0 < 2 ^ (- e)) by (apply Z.pow_pos_nonneg; lia).
    assert (n * 2 ^ (- e) <= 0) by (apply Z.mul_nonpos_nonneg; lia).
    pose proof (Pos2Z.is_pos m). lia.
Qed.

Lemma nonneg_gt_int x n : nonneg x -> n < 0 -> gt_int x n = true.
Proof.
  destruct x as [[]|[]| |[] m e]; cbn; try tauto; intros _ Hn; [lia|].
  destruct (0 <=? e) eqn:He.
  - assert (0 < 2 ^ e) by (apply Z.pow_pos_nonneg; lia).
    assert (0 < Z.pos m * 2 ^ e) by (apply Z.mul_pos_pos; lia). lia.
  - assert (0 < 2 ^ (- e)) by (apply Z.pow_pos_nonneg; lia).
    assert (n * 2 ^ (- e) <= 0) by (apply Z.mul_nonpos_nonneg; lia).
    pose proof (Pos2Z.is_pos m). lia.
Qed.
End float64_facts.

(** ** The paginator *)

Section paginator.
Import CreatePdfs.

Lemma is_nil_snoc {A} (l : list A) (x : A) : is_nil (l ++ [x]) = false.
Proof. destruct l; reflexivity. Qed.

Lemma is_nil_false {A} (l : list A) : is_nil l = false <-> l <> [].
Proof. destruct l; cbn; split; congruence. Qed.

(** *** The loops are the recursive functions *)

Lemma loop_manual section_breaks l : forall sections current_section,
  (let '(s, c) := fold_left (manual_step section_breaks) l
                    (sections, current_section) in
   if is_nil c then s else s ++ [c])
  = sections ++ manual_chunks section_breaks current_section l.
Proof.
  induction l as [|e l IH]; intros sections cur; cbn [fold_left manual_chunks].
  - destruct (is_nil cur); [rewrite app_nil_r|]; reflexivity.
  - unfold manual_step at 2.
    destruct (set_mem (name e.1) section_breaks && negb (is_nil cur));
      rewrite IH; [rewrite <- app_assoc|]; reflexivity.
Qed.

Lemma manual_split_chunks section_breaks images :
  manual_split section_breaks images = manual_chunks section_breaks [] images.
Proof. apply (loop_manual section_breaks images [] []). Qed.

Lemma loop_auto max_bytes l : forall sections current_section current_size,
  (let '(s, c, _) := fold_left (auto_step max_bytes) l
                       (sections, current_section, current_size) in
   if is_nil c then s else s ++ [c])
  = sections ++ auto_chunks max_bytes current_section current_size l.
Proof.
  induction l as [|e l IH]; intros sections cur size; cbn [fold_left auto_chunks].
  - destruct (is_nil cur); [rewrite app_nil_r|]; reflexivity.
  - unfold auto_step at 2.
    destruct (Float64.gt_int (Float64.add size (img_size e)) max_bytes
              && negb (is_nil cur));
      rewrite IH; [rewrite <- app_assoc|]; reflexivity.
Qed.

Lemma auto_split_chunks max_bytes images :
  auto_split max_bytes images = auto_chunks max_bytes [] Float64.zero images.
Proof. apply (loop_auto max_bytes images [] [] Float64.zero). Qed.

(** *** Partition *)

Lemma manual_chunks_partition section_breaks l : forall cur,
  partition_of (cur ++ l) (manual_chunks section_breaks cur l).
Proof.
  unfold partition_of.
  induction l as [|e l IH]; intros cur; cbn [manual_chunks].
  - rewrite app_nil_r. destruct cur; cbn; [auto|].
    rewrite app_nil_r. split; [reflexivity|]. repeat constructor. discriminate.
  - destruct (set_mem _ _ && negb (is_nil cur)) eqn:Hc.
    + apply andb_true_iff in Hc as [_ Hn]. apply negb_true_iff, is_nil_false in Hn.
      destruct (IH [e]) as [Hcat Hne]. cbn [concat]. rewrite Hcat.
      split; [reflexivity|]. constructor; assumption.
    + destruct (IH (cur ++ [e])) as [Hcat Hne]. rewrite Hcat, <- app_assoc.
      split; [reflexivity|assumption].
Qed.

Lemma auto_chunks_partition max_bytes l : forall cur size,
  partition_of (cur ++ l) (auto_chunks max_bytes cur size l).
Proof.
  unfold partition_of.
  induction l as [|e l IH]; intros cur size; cbn [auto_chunks].
  - rewrite app_nil_r. destruct cur; cbn; [auto|].
    rewrite app_nil_r. split; [reflexivity|]. repeat constructor. discriminate.
  - destruct (Float64.gt_int _ _ && negb (is_nil cur)) eqn:Hc.
    + apply andb_true_iff in Hc as [_ Hn]. apply negb_true_iff, is_nil_false in Hn.
      destruct (IH [e] (Float64.add Float64.zero (img_size e))) as [Hcat Hne].
      cbn [concat]. rewrite Hcat.
      split; [reflexivity|]. constructor; assumption.
    + destruct (IH (cur ++ [e]) (Float64.add size (img_size e))) as [Hcat Hne].
      rewrite Hcat, <- app_assoc. split; [reflexivity|assumption].
Qed.

(** *** Manual mode: the sections and the break markers *)

Lemma manual_chunks_length section_breaks l : forall cur,
  cur <> [] ->
  length (manual_chunks section_breaks cur l)
  = 1 + length (filter (fun e => is_break section_breaks e = true) l).
Proof.
  induction l as [|e l IH]; intros cur Hcur; cbn [manual_chunks].
  - destruct cur; [congruence|reflexivity].
  - apply is_nil_false in Hcur as Hn. rewrite Hn, andb_true_r.
    rewrite filter_cons.
    destruct (set_mem (name e.1) section_breaks) eqn:Hb.
    + rewrite decide_True by exact Hb. cbn [length]. rewrite IH by discriminate.
      reflexivity.
    + rewrite decide_False by (unfold is_break; congruence). apply IH.
      destruct cur; discriminate.
Qed.

Lemma manual_chunks_heads section_breaks l : forall cur,
  cur <> [] ->
  exists pre ss,
    manual_chunks section_breaks cur l = (cur ++ pre) :: ss /\
    Forall (starts_with_break section_breaks) ss.
Proof.
  induction l as [|e l IH]; intros cur Hcur; cbn [manual_chunks].
  - exists [], []. destruct cur; [congruence|]. rewrite app_nil_r. auto.
  - apply is_nil_false in Hcur as Hn. rewrite Hn, andb_true_r.
    destruct (set_mem (name e.1) section_breaks) eqn:Hb.
    + destruct (IH [e]) as (pre & ss & -> & Hss); [discriminate|].
      exists [], (([e] ++ pre) :: ss). rewrite app_nil_r.
      split; [reflexivity|]. constructor; [exact Hb|assumption].
    + destruct (IH (cur ++ [e])) as (pre & ss & -> & Hss).
      { destruct cur; discriminate. }
      exists (e :: pre), ss. rewrite <- app_assoc. auto.
Qed.

Lemma manual_chunks_tails section_breaks l : forall cur,
  cur <> [] -> break_only_at_head section_breaks cur ->
  Forall (break_only_at_head section_breaks) (manual_chunks section_breaks cur l).
Proof.
  unfold break_only_at_head.
  induction l as [|e l IH]; intros cur Hcur Htl; cbn [manual_chunks].
  - destruct cur; [congruence|]. repeat constructor. assumption.
  - apply is_nil_false in Hcur as Hn. rewrite Hn, andb_true_r.
    destruct (set_mem (name e.1) section_breaks) eqn:Hb.
    + constructor; [assumption|]. apply IH; [discriminate|constructor].
    + apply IH; [destruct cur; discriminate|].
      destruct cur as [|c cur]; [congruence|]. cbn [tail app] in *.
      apply Forall_app. split; [assumption|]. repeat constructor. exact Hb.
Qed.

(** *** Break markers as a set of filenames *)

Lemma set_mem_names x s : set_mem x s = true <-> x ∈ set_names s.
Proof.
  unfold set_mem, set_names. rewrite elem_of_list_to_set, list_elem_of_omap.
  rewrite existsb_exists. split.
  - intros (v & Hin & Hv). exists v. split; [apply list_elem_of_In; exact Hin|].
    destruct v; try discriminate. apply String.eqb_eq in Hv. congruence.
  - intros (v & Hin & Hv). exists v. split; [apply list_elem_of_In; exact Hin|].
    destruct v; try discriminate. injection Hv as ->. apply String.eqb_refl.
Qed.

Lemma size_inter_list_to_set (A : gset string) (l : list string) :
  NoDup l -> size (A ∩ list_to_set l) = length (filter (fun x => x ∈ A) l).
Proof.
  induction 1 as [|x l Hx Hnd IH]; cbn [list_to_set foldr].
  - rewrite intersection_empty_r_L. reflexivity.
  - rewrite filter_cons. destruct (decide (x ∈ A)) as [Hin|Hout].
    + replace (A ∩ ({[x]} ∪ list_to_set l)) with ({[x]} ∪ (A ∩ list_to_set l) : gset string)
        by set_solver.
      rewrite size_union by set_solver. rewrite size_singleton, IH. reflexivity.
    + replace (A ∩ ({[x]} ∪ list_to_set l)) with (A ∩ list_to_set l : gset string)
        by set_solver.
      exact IH.
Qed.

Lemma count_marked (s : pyset) (l : list path) :
  NoDup (name <$> l) ->
  size (set_names s ∩ list_to_set (name <$> l))
  = length (filter (fun f => set_mem (name f) s = true) l).
Proof.
  intros Hnd. rewrite size_inter_list_to_set by assumption. clear Hnd.
  induction l as [|f l IH]; [reflexivity|].
  rewrite fmap_cons, !filter_cons.
  destruct (decide (name f ∈ set_names s)) as [Hin|Hout].
  - rewrite decide_True by (apply set_mem_names; exact Hin). cbn. congruence.
  - rewrite decide_False by (rewrite set_mem_names; exact Hout). exact IH.
Qed.
End paginator.

Section automatic_mode.
Import CreatePdfs.

Lemma img_size_nonneg e : Float64.nonneg (img_size e).
Proof.
  apply mul_c085_nonneg, of_int_nonneg. lia.
Qed.

Lemma img_size_positive e :
  st_size e.1 <> 0%N -> Float64.strictly_pos (img_size e).
Proof.
  intros Hs. apply mul_c085_positive, of_int_positive. lia.
Qed.

Lemma img_size_class e :
  img_size e = Float64.zero \/ Float64.strictly_pos (img_size e).
Proof.
  destruct (decide (st_size e.1 = 0%N)) as [Hz|Hnz].
  - left. unfold img_size. rewrite Hz. reflexivity.
  - right. apply img_size_positive, Hnz.
Qed.

Lemma section_size_snoc s e :
  section_size (s ++ [e]) = Float64.add (section_size s) (img_size e).
Proof. unfold section_size. rewrite fold_left_app. reflexivity. Qed.

Lemma section_size_nonneg s : Float64.nonneg (section_size s).
Proof.
  induction s as [|e s IH] using rev_ind; [exact I|].
  rewrite section_size_snoc. apply add_nonneg; [exact IH|apply img_size_nonneg].
Qed.

Lemma section_size_singleton e : section_size [e] = img_size e.
Proof. apply add_zero_l, img_size_nonneg. Qed.

Lemma singleton_within_bound max_bytes e : within_bound max_bytes [e].
Proof.
  destruct (Float64.gt_int (img_size e) max_bytes) eqn:Hgt.
  - right. exists e. auto.
  - left. rewrite section_size_singleton.
    apply not_gt_le_int; [apply img_size_nonneg|exact Hgt].
Qed.

Lemma auto_chunks_bound max_bytes l : forall cur size,
  size = section_size cur ->
  cur = [] \/ within_bound max_bytes cur ->
  Forall (within_bound max_bytes) (auto_chunks max_bytes cur size l).
Proof.
  induction l as [|e l IH]; intros cur size Hsize Hcur; cbn [auto_chunks].
  - destruct cur; cbn; [constructor|].
    destruct Hcur as [|Hcur]; [discriminate|].
    constructor; [exact Hcur|constructor].
  - destruct (Float64.gt_int _ _ && negb (is_nil cur)) eqn:Hc.
    + apply andb_true_iff in Hc as [_ Hn].
      apply negb_true_iff, is_nil_false in Hn.
      destruct Hcur as [|Hcur]; [congruence|].
      constructor; [exact Hcur|].
      apply IH; [reflexivity|]. right. apply singleton_within_bound.
    + apply IH; [subst size; symmetry; apply section_size_snoc|]. right.
      destruct cur as [|c cur]; [apply singleton_within_bound|].
      cbn [is_nil negb] in Hc. rewrite andb_true_r in Hc.
      left. rewrite section_size_snoc, <- Hsize.
      apply not_gt_le_int; [|exact Hc].
      subst size. apply add_nonneg; [apply section_size_nonneg|apply img_size_nonneg].
Qed.

Lemma auto_chunks_singletons max_bytes l : forall p,
  (max_bytes < 0 \/
   max_bytes = 0 /\ no_two_empty_in_a_row (p :: l) = true)%Z ->
  auto_chunks max_bytes [p] (Float64.add Float64.zero (img_size p)) l
  = [p] :: map (fun e => [e]) l.
Proof.
  induction l as [|e l IH]; intros p Hmax; [reflexivity|].
  cbn [auto_chunks is_nil negb map]. rewrite andb_true_r.
  rewrite (add_zero_l (img_size p)) by apply img_size_nonneg.
  assert (Hgt : Float64.gt_int (Float64.add (img_size p) (img_size e)) max_bytes = true).
  { destruct Hmax as [Hneg|[-> Hrow]].
    - apply nonneg_gt_int; [|exact Hneg].
      apply add_nonneg; apply img_size_nonneg.
    - apply strictly_pos_gt_int; [|lia].
      apply add_strictly_pos; try apply img_size_class.
      cbn [no_two_empty_in_a_row] in Hrow.
      apply andb_true_iff in Hrow as [Hpe _].
      apply negb_true_iff, andb_false_iff in Hpe as [Hp|He].
      + left. apply img_size_positive. apply N.eqb_neq, Hp.
      + right. apply img_size_positive. apply N.eqb_neq, He. }
  rewrite Hgt. f_equal. apply IH.
  destruct Hmax as [Hneg|[-> Hrow]]; [left; exact Hneg|right].
  split; [reflexivity|]. cbn [no_two_empty_in_a_row] in Hrow.
  apply andb_true_iff in Hrow as [_ Hrow]. exact Hrow.
Qed.
End automatic_mode.

(** ** Claims on the paginator *)

(** C1. In either mode the sections are a partition of the entries: none is
    empty, and put end to end they are the input, so that no entry is lost,
    repeated or moved.  This holds of the manual split for every set of
    break markers, of the automatic split for every bound, and of the
    choice between them that [main] makes. *)
Theorem split_sections_partition
    (section_breaks : pyset) (max_size max_bytes : Z) (images : list entry) :
  partition_of images (CreatePdfs.manual_split section_breaks images) /\
  partition_of images (CreatePdfs.auto_split max_bytes images) /\
  partition_of images (CreatePdfs.split_sections section_breaks max_size images).
Proof.
  assert (Hm : partition_of images (CreatePdfs.manual_split section_breaks images)).
  { rewrite manual_split_chunks. apply (manual_chunks_partition section_breaks images []). }
  assert (Ha : forall m, partition_of images (CreatePdfs.auto_split m images)).
  { intros m. rewrite auto_split_chunks.
    apply (auto_chunks_partition m images [] Float64.zero). }
  split; [exact Hm|]. split; [apply Ha|].
  unfold CreatePdfs.split_sections.
  destruct (set_truthy section_breaks); [exact Hm|apply Ha].
Qed.

(** C4. With a non-empty set of break markers and a non-empty sequence of
    entries, the number of sections is 1 + k, where k counts the entries
    after the first whose filename is marked; for entries of distinct
    filenames (the members of a directory) k is the number of marked
    filenames that occur in the sequence after its first entry.  A marker
    on a filename that is absent (discarded) or on the first entry adds no
    section.  Every section after the first starts with a marked entry and
    no section has a marked entry after its first one: the marked entry
    opens the next section. *)
Theorem manual_split_sections
    (section_breaks : pyset) (max_size : Z) (first : entry) (rest : list entry) :
  set_truthy section_breaks = true ->
  let sections :=
    CreatePdfs.split_sections section_breaks max_size (first :: rest) in
  length sections
    = 1 + length (filter (fun e => is_break section_breaks e = true) rest) /\
  (NoDup ((fun e : entry => name e.1) <$> first :: rest) ->
   length sections
   = 1 + size (set_names section_breaks
               ∩ list_to_set ((fun e : entry => name e.1) <$> rest))) /\
  Forall (starts_with_break section_breaks) (tail sections) /\
  Forall (break_only_at_head section_breaks) sections.
Proof.
  intros Hset. unfold CreatePdfs.split_sections. rewrite Hset.
  rewrite manual_split_chunks. cbn [manual_chunks CreatePdfs.is_nil negb app].
  rewrite andb_false_r. cbn zeta.
  split; [apply manual_chunks_length; discriminate|]. split; [|split].
  - intros Hnd. rewrite manual_chunks_length by discriminate. f_equal.
    apply NoDup_cons in Hnd as [_ Hnd].
    rewrite size_inter_list_to_set by exact Hnd.
    clear Hnd. induction rest as [|e rest IH]; [reflexivity|].
    rewrite fmap_cons, !filter_cons.
    destruct (decide (name e.1 ∈ set_names section_breaks)) as [Hin|Hout].
    + rewrite decide_True by (apply set_mem_names; exact Hin). cbn. congruence.
    + rewrite decide_False by (unfold is_break; rewrite set_mem_names; exact Hout).
      exact IH.
  - destruct (manual_chunks_heads section_breaks rest [first])
      as (pre & ss & -> & Hss); [discriminate|exact Hss].
  - apply manual_chunks_tails; [discriminate|constructor].
Qed.

Lemma manual_split_sections_witness :
  let breaks := [PStr "c.jpg"; PStr "b.jpg"] in
  let a := (Path "a.jpg" 10, PInt 90) in
  let c := (Path "c.jpg" 10, PInt 0) in
  let d := (Path "d.jpg" 10, PInt 0) in
  set_truthy breaks = true /\
  NoDup ((fun e : entry => name e.1) <$> [a; c; d]) /\
  length (CreatePdfs.split_sections breaks 200 [a; c; d])
  = 1 + size (set_names breaks ∩ list_to_set ((fun e : entry => name e.1) <$> [c; d])).
Proof.
  intros breaks a c d.
  assert (Hnd : NoDup ((fun e : entry => name e.1) <$> [a; c; d]))
    by (apply (bool_decide_unpack _); vm_compute; exact I).
  split; [reflexivity|]. split; [exact Hnd|].
  destruct (manual_split_sections breaks 200 a [c; d] eq_refl) as (_ & H & _).
  exact (H Hnd).
Defined.



(** C7, as the code has it.  When [max_bytes] is negative, or is zero and
    no two entries in a row are both files of size zero, the automatic
    split makes one section of each entry. *)
Theorem auto_split_singletons (max_bytes : Z) (images : list entry) :
  (max_bytes < 0 \/ max_bytes = 0 /\ no_two_empty_in_a_row images = true)%Z ->
  CreatePdfs.auto_split max_bytes images = map (fun e => [e]) images.
Proof.
  intros Hmax. rewrite auto_split_chunks.
  destruct images as [|p l]; [reflexivity|].
  cbn [auto_chunks CreatePdfs.is_nil negb app map]. rewrite andb_false_r.
  apply auto_chunks_singletons, Hmax.
Qed.

Lemma auto_split_singletons_witness :
  let a := (Path "a.jpg" 0, PInt 0) in
  let b := (Path "b.jpg" 7, PInt 0) in
  let c := (Path "c.jpg" 0, PInt 0) in
  CreatePdfs.auto_split 0 [a; b; c] = [[a]; [b]; [c]].
Proof.
  intros a b c. apply (auto_split_singletons 0 [a; b; c]).
  right. split; reflexivity.
Defined.

(** C7 fails as stated: with [max_bytes = 0], two files of size zero in a
    row stay in one section, since [0.0 + 0.0 > 0] is false. *)
Lemma auto_split_zero_bound_counterexample :
  ~ (forall (max_bytes : Z) (images : list entry),
       (max_bytes <= 0)%Z ->
       Forall (fun s => length s = 1) (CreatePdfs.auto_split max_bytes images)).
Proof.
  intros H.
  specialize (H 0%Z [(Path "a.jpg" 0, PInt 0); (Path "b.jpg" 0, PInt 0)]).
  assert (Hle : (0 <= 0)%Z) by lia. specialize (H Hle).
  vm_compute in H. inversion H as [|s l Hlen _]. discriminate Hlen.
Qed.

(** ** The correction pipeline *)

Lemma filter_discards_dict (d : gmap string pyval) (discards : pyset)
    (all_images : list path) :
  CreatePdfs.filter_discards (PDict d) discards all_images
  = Ok ((fun f => (f, default (PInt 0) (d !! name f)))
          <$> filter (fun f => set_mem (name f) discards = false) all_images).
Proof.
  induction all_images as [|f l IH]; [reflexivity|].
  cbn [CreatePdfs.filter_discards]. rewrite filter_cons, IH.
  destruct (set_mem (name f) discards) eqn:Hm; cbn [negb].
  - rewrite decide_False by discriminate. reflexivity.
  - rewrite decide_True by reflexivity. reflexivity.
Qed.

Lemma length_filter_split {A} (P : A -> bool) (l : list A) :
  length (filter (fun x => P x = false) l) + length (filter (fun x => P x = true) l)
  = length l.
Proof.
  induction l as [|x l IH]; [reflexivity|].
  rewrite !filter_cons. destruct (P x).
  - rewrite decide_False by discriminate. rewrite decide_True by reflexivity.
    cbn [length]. lia.
  - rewrite decide_True by reflexivity. rewrite decide_False by discriminate.
    cbn [length]. lia.
Qed.

(** C2. For a review whose rotations are a mapping, the pipeline emits the
    images whose filename is not discarded, in the order of the input, each
    with its rotation in the mapping or 0.  The output is as long as the
    input less the discarded entries; for images of distinct filenames (a
    sorted directory listing) that is the input less the number of
    discarded filenames that occur in it. *)
Theorem filter_discards_spec (d : gmap string pyval) (discards : pyset)
    (all_images : list path) :
  let kept := filter (fun f => set_mem (name f) discards = false) all_images in
  CreatePdfs.filter_discards (PDict d) discards all_images
    = Ok ((fun f => (f, default (PInt 0) (d !! name f))) <$> kept) /\
  kept `sublist_of` all_images /\
  length kept
    + length (filter (fun f => set_mem (name f) discards = true) all_images)
    = length all_images /\
  (NoDup (name <$> all_images) ->
   length kept + size (set_names discards ∩ list_to_set (name <$> all_images))
   = length all_images).
Proof.
  cbn zeta. split; [apply filter_discards_dict|].
  split; [apply sublist_filter|].
  split; [apply (length_filter_split (fun f => set_mem (name f) discards))|].
  intros Hnd. rewrite count_marked by exact Hnd.
  apply (length_filter_split (fun f => set_mem (name f) discards)).
Qed.

Lemma filter_discards_spec_witness :
  let all_images := [Path "a.jpg" 1; Path "b.jpg" 2; Path "c.jpg" 3; Path "d.jpg" 4] in
  let discards := [PStr "b.jpg"; PStr "zz.jpg"] in
  NoDup (name <$> all_images) /\
  length (filter (fun f => set_mem (name f) discards = false) all_images)
    + size (set_names discards ∩ list_to_set (name <$> all_images))
  = length all_images.
Proof.
  intros all_images discards.
  assert (Hnd : NoDup (name <$> all_images))
    by (apply (bool_decide_unpack _); vm_compute; exact I).
  split; [exact Hnd|].
  apply (filter_discards_spec {[ "a.jpg" := PInt 90 ]} discards all_images), Hnd.
Defined.

(** ** The rotation mapping *)

(** C3. For every image and every integer angle, 90 is a quarter turn
    counter-clockwise, 180 a half turn, 270 a quarter turn clockwise and
    every other angle, 0 included, leaves the image as it is: in the
    rotation workflow, in [rotate_image] of the PDF workflow, and in the
    page that [create_pdf] makes of an image and its rotation. *)
Theorem rotate_image_mapping (img : image) (angle : Z) :
  let turned :=
    if (angle =? 90)%Z then quarter_turn_ccw img
    else if (angle =? 180)%Z then half_turn img
    else if (angle =? 270)%Z then quarter_turn_cw img
    else img in
  ApplyCorrections.rotate_image img (PInt angle) = turned /\
  CreatePdfs.rotate_image img (PInt angle) = turned /\
  CreatePdfs.page img (PInt angle) = turned.
Proof.
  cbn zeta. split; [|split].
  - unfold ApplyCorrections.rotate_image, py_eq_int, cv2.rotate.
    repeat case_match; reflexivity.
  - unfold CreatePdfs.rotate_image, py_eq_int, PIL.transpose.
    repeat case_match; reflexivity.
  - unfold CreatePdfs.page, CreatePdfs.rotate_image, py_truthy, py_eq_int,
      PIL.transpose.
    destruct (angle =? 0)%Z eqn:H0; cbn [negb]; repeat case_match; try reflexivity; lia.
Qed.

(** ** The review artifact *)

(** C6 fails as stated, in both directions: a root that is an array is no
    object and loads (as the rotations value); an object whose [discards]
    is a number has a [corrections] key and does not load. *)
Lemma load_review_counterexample :
  let root := PList [PStr "a.jpg"] in
  let object := PDict {[ "corrections" := PDict ∅; "discards" := PInt 5 ]} in
  (is_dict root = false /\
   CreatePdfs.load_review (Some root) = Ok (CreatePdfs.Review root [] [])) /\
  (is_dict object = true /\
   CreatePdfs.load_review (Some object) = Raise TypeError).
Proof. vm_compute. auto. Qed.

Lemma py_set_raises v e : py_set v = Raise e -> e = TypeError.
Proof. destruct v; cbn; try case_match; congruence. Qed.

Lemma py_len_raises v e : py_len v = Raise e -> e = TypeError.
Proof. destruct v; cbn; congruence. Qed.

Lemma load_review_legacy data :
  CreatePdfs.has_corrections data = false ->
  CreatePdfs.load_review (Some data)
  = if is_ok (py_len data) then Ok (CreatePdfs.Review data [] [])
    else Raise TypeError.
Proof.
  intros Hshape. unfold CreatePdfs.load_review. rewrite Hshape.
  cbn. destruct data; reflexivity.
Qed.

Lemma load_review_current d c :
  d !! "corrections" = Some c ->
  CreatePdfs.load_review (Some (PDict d))
  = match py_set (default (PList []) (d !! "sectionBreaks")),
          py_set (default (PList []) (d !! "discards")),
          py_len c with
    | Ok breaks, Ok dropped, Ok _ => Ok (CreatePdfs.Review c breaks dropped)
    | _, _, _ => Raise TypeError
    end.
Proof.
  intros Hc. unfold CreatePdfs.load_review, CreatePdfs.has_corrections.
  rewrite bool_decide_eq_true_2 by (rewrite Hc; eauto).
  cbn. rewrite Hc. cbn.
  destruct (py_set (default (PList []) (d !! "sectionBreaks"))) as [sb|e1] eqn:Hsb;
    [|apply py_set_raises in Hsb as ->; reflexivity].
  cbn.
  destruct (py_set (default (PList []) (d !! "discards"))) as [ds|e2] eqn:Hds;
    [|apply py_set_raises in Hds as ->; reflexivity].
  cbn. destruct c; reflexivity.
Qed.

Lemma load_review_raises data e :
  CreatePdfs.load_review (Some data) = Raise e -> e = TypeError.
Proof.
  destruct (CreatePdfs.has_corrections data) eqn:Hshape.
  - destruct data as [| | | | | |d]; try discriminate. cbn in Hshape.
    apply bool_decide_eq_true_1 in Hshape as [c Hc].
    rewrite (load_review_current d c Hc). repeat case_match; congruence.
  - rewrite load_review_legacy by exact Hshape. case_match; congruence.
Qed.

(** C6, as the code has it.  Loading does not test that the root is an
    object.  A root without a [corrections] key, object or not, is taken
    whole as the rotations, with no section break and no discard; it loads
    when it has a length (object, array, string), and every such object
    loads.  A root object with a [corrections] key is read as the current
    shape; it loads when the rotations have a length and [sectionBreaks]
    and [discards], [[]] when missing, can be made into sets.  Every other
    load raises [TypeError], and then the run fails whatever the directory
    holds. *)
Theorem load_review_shapes (data : pyval) :
  (CreatePdfs.has_corrections data = false ->
   CreatePdfs.load_review (Some data)
   = if is_ok (py_len data) then Ok (CreatePdfs.Review data [] [])
     else Raise TypeError) /\
  (is_dict data = true -> CreatePdfs.has_corrections data = false ->
   CreatePdfs.load_review (Some data) = Ok (CreatePdfs.Review data [] [])) /\
  (forall d c, data = PDict d -> d !! "corrections" = Some c ->
   CreatePdfs.load_review (Some data)
   = match py_set (default (PList []) (d !! "sectionBreaks")),
           py_set (default (PList []) (d !! "discards")),
           py_len c with
     | Ok breaks, Ok dropped, Ok _ => Ok (CreatePdfs.Review c breaks dropped)
     | _, _, _ => Raise TypeError
     end) /\
  (forall e dir max_size,
   CreatePdfs.load_review (Some data) = Raise e ->
   e = TypeError /\ CreatePdfs.plan (Some data) dir max_size = Raise e).
Proof.
  split; [|split; [|split]].
  - apply load_review_legacy.
  - intros Hd Hshape. rewrite load_review_legacy by exact Hshape.
    destruct data; try discriminate. reflexivity.
  - intros d c -> Hc. apply load_review_current, Hc.
  - intros e dir max_size Hload. split; [eapply load_review_raises, Hload|].
    unfold CreatePdfs.plan. rewrite Hload. reflexivity.
Qed.

Lemma load_review_shapes_witness :
  let legacy := PDict {[ "a.jpg" := PInt 90 ]} in
  let current :=
    PDict {[ "corrections" := PDict {[ "a.jpg" := PInt 90 ]};
             "sectionBreaks" := PList [PStr "c.jpg"] ]} in
  CreatePdfs.load_review (Some legacy) = Ok (CreatePdfs.Review legacy [] []) /\
  CreatePdfs.load_review (Some current)
    = Ok (CreatePdfs.Review (PDict {[ "a.jpg" := PInt 90 ]}) [PStr "c.jpg"] []) /\
  CreatePdfs.plan (Some (PInt 7)) [Path "a.jpg" 1] 200 = Raise TypeError.
Proof.
  intros legacy current. split; [|split].
  - apply (load_review_shapes legacy); reflexivity.
  - destruct (load_review_shapes current) as (_ & _ & H & _).
    rewrite (H _ (PDict {[ "a.jpg" := PInt 90 ]}) eq_refl); reflexivity.
  - destruct (load_review_shapes (PInt 7)) as (_ & _ & _ & H).
    apply (H TypeError). reflexivity.
Defined.

(** ** The archive writer *)
Section archive_writer.
Import CreatePdfs.
Variable open_rgb : path -> option image.

Lemma load_step_pages st e :
  (first_image st = None -> images st = []) ->
  let st' := load_step open_rgb st e in
  (first_image st' = None -> images st' = []) /\
  pages st' = pages st ++ decoded open_rgb [e] /\
  warnings st' = warnings st ++ undecoded open_rgb [e].
Proof.
  intros Hinv. unfold load_step, decoded, undecoded, pages.
  rewrite filter_cons, filter_nil. cbn [omap list_omap].
  destruct (open_rgb e.1) as [img|] eqn:Hopen; cbn [fmap option_fmap option_map].
  - rewrite decide_False by discriminate.
    destruct (first_image st) as [first|] eqn:Hfirst; cbn.
    + rewrite app_nil_r. split; [discriminate|]. auto.
    + rewrite (Hinv eq_refl), app_nil_r. split; [discriminate|]. auto.
  - rewrite decide_True by reflexivity. cbn.
    rewrite app_nil_r. auto.
Qed.

Lemma decoded_cons e l :
  decoded open_rgb (e :: l) = decoded open_rgb [e] ++ decoded open_rgb l.
Proof. unfold decoded. change (e :: l) with ([e] ++ l). apply omap_app. Qed.

Lemma undecoded_cons e l :
  undecoded open_rgb (e :: l) = undecoded open_rgb [e] ++ undecoded open_rgb l.
Proof.
  unfold undecoded. change (e :: l) with ([e] ++ l).
  rewrite filter_app. apply fmap_app.
Qed.

Lemma load_loop l : forall st,
  (first_image st = None -> images st = []) ->
  let st' := fold_left (load_step open_rgb) l st in
  pages st' = pages st ++ decoded open_rgb l /\
  warnings st' = warnings st ++ undecoded open_rgb l.
Proof.
  induction l as [|e l IH]; intros st Hinv; cbn [fold_left].
  - change (decoded open_rgb []) with (@nil image).
    change (undecoded open_rgb []) with (@nil string). rewrite !app_nil_r.
    split; reflexivity.
  - destruct (load_step_pages st e Hinv) as (Hinv' & Hp & Hw).
    destruct (IH _ Hinv') as [Hp' Hw']. cbn zeta in *.
    rewrite Hp', Hw', Hp, Hw, (decoded_cons e l), (undecoded_cons e l).
    rewrite <- !app_assoc.
    split; reflexivity.
Qed.

Lemma length_decoded l :
  length (decoded open_rgb l)
  = length (filter (fun e : entry => is_Some (open_rgb e.1)) l).
Proof.
  induction l as [|e l IH]; [reflexivity|].
  unfold decoded in *. cbn [omap list_omap]. rewrite filter_cons.
  destruct (open_rgb e.1) as [img|]; cbn [fmap option_fmap option_map].
  - rewrite decide_True by eauto. cbn [length]. congruence.
  - rewrite decide_False by (intros [? ?]; discriminate). exact IH.
Qed.

Lemma decoded_none l :
  Forall (fun e => open_rgb e.1 = None) l -> decoded open_rgb l = [].
Proof.
  induction 1 as [|e l He _ IH]; [reflexivity|].
  unfold decoded in *. cbn [omap list_omap]. rewrite He. exact IH.
Qed.
End archive_writer.

(** C8. [create_pdf] returns the number of entries of the section that
    decode; an entry that does not decode is warned about and left out,
    while the pages of the others are saved in the order of the section;
    when no entry decodes, it returns 0 and saves no file. *)
Theorem create_pdf_spec (open_rgb : path -> option image) (image_data : list entry) :
  let out := CreatePdfs.create_pdf open_rgb image_data in
  CreatePdfs.returned out
    = length (filter (fun e : entry => is_Some (open_rgb e.1)) image_data) /\
  CreatePdfs.warned out = undecoded open_rgb image_data /\
  CreatePdfs.saved out
    = (if CreatePdfs.is_nil (decoded open_rgb image_data) then None
       else Some (decoded open_rgb image_data)) /\
  (Forall (fun e => open_rgb e.1 = None) image_data ->
   CreatePdfs.returned out = 0 /\ CreatePdfs.saved out = None).
Proof.
  cbn zeta.
  assert (H : CreatePdfs.returned (CreatePdfs.create_pdf open_rgb image_data)
              = length (decoded open_rgb image_data) /\
              CreatePdfs.warned (CreatePdfs.create_pdf open_rgb image_data)
              = undecoded open_rgb image_data /\
              CreatePdfs.saved (CreatePdfs.create_pdf open_rgb image_data)
              = (if CreatePdfs.is_nil (decoded open_rgb image_data) then None
                 else Some (decoded open_rgb image_data))).
  { unfold CreatePdfs.create_pdf.
    destruct image_data as [|e l]; [cbn; auto|]. cbn [CreatePdfs.is_nil].
    destruct (load_loop open_rgb (e :: l) (CreatePdfs.Loaded None [] []))
      as [Hp Hw]; [reflexivity|]. cbn zeta in *.
    unfold pages in Hp. cbn [CreatePdfs.first_image CreatePdfs.warnings app] in Hp, Hw.
    destruct (CreatePdfs.first_image _) as [first|];
      cbn [CreatePdfs.returned CreatePdfs.warned CreatePdfs.saved];
      rewrite <- Hp, Hw; cbn [length CreatePdfs.is_nil]; repeat split; lia. }
  destruct H as (Hr & Hw & Hs).
  split; [rewrite Hr; apply length_decoded|].
  split; [exact Hw|]. split; [exact Hs|].
  intros Hall. rewrite Hr, Hs, (decoded_none _ _ Hall). split; reflexivity.
Qed.

Lemma create_pdf_spec_witness :
  let blank := Image 1 1 (fun _ _ => (0, 0, 0)%N) in
  let open_rgb := fun f : path => if String.eqb (name f) "b.jpg" then None else Some blank in
  let unreadable := [(Path "b.jpg" 3, PInt 90)] in
  CreatePdfs.returned (CreatePdfs.create_pdf open_rgb unreadable) = 0 /\
  CreatePdfs.saved (CreatePdfs.create_pdf open_rgb unreadable) = None.
Proof.
  intros blank open_rgb unreadable.
  destruct (create_pdf_spec open_rgb unreadable) as (_ & _ & _ & H).
  apply H. repeat constructor.
Defined.

(** ** The rotation workflow *)
Section rotation_loop.
Import ApplyCorrections.
Variable imread : path -> imread_result.
Variable imwrite_raises : path -> bool.
Variable corrections : gmap string pyval.
Variable copy_unchanged : bool.

Lemma step_one_more st img_path :
  one_more st.1 (step imread imwrite_raises corrections copy_unchanged st img_path).1.
Proof.
  destruct st as [[r c k e] out]. unfold step. cbn [fst one_more].
  repeat case_match; cbn [fst]; auto.
Qed.

Lemma one_more_total s s' : one_more s s' -> total s' = total s + 1.
Proof.
  destruct s as [r c k e]. unfold one_more, total.
  intros [-> | [-> | [-> | ->]]]; cbn; lia.
Qed.

Lemma loop_total images : forall st,
  total (fold_left (step imread imwrite_raises corrections copy_unchanged) images st).1
  = total st.1 + length images.
Proof.
  induction images as [|f l IH]; intros st; cbn [fold_left length]; [lia|].
  rewrite IH, (one_more_total _ _ (step_one_more st f)). lia.
Qed.
End rotation_loop.



(** ** The enumeration of the images *)
Section enumeration.

(** *** The order on names *)

Lemma leb_lt_eq (a b : string) :
  String.leb a b = true <-> a = b \/ String_as_OT.lt a b.
Proof.
  unfold String.leb. rewrite <- String_as_OT.cmp_lt, <- String_as_OT.cmp_eq.
  unfold String_as_OT.cmp. destruct (String.compare a b); split;
    try discriminate; auto; intros [?|?]; discriminate.
Qed.

Lemma leb_trans (a b c : string) :
  String.leb a b = true -> String.leb b c = true -> String.leb a c = true.
Proof.
  rewrite !leb_lt_eq. intros [->|Hab] [->|Hbc]; auto.
  right. eapply String_as_OT.lt_trans; eassumption.
Qed.

#[local] Instance by_name_trans : Transitive by_name.
Proof. intros f g h. unfold by_name, name_le. apply leb_trans. Qed.

Lemma by_name_total f g : by_name f g \/ by_name g f.
Proof. unfold by_name, name_le. apply String.leb_total. Qed.

(** *** [sorted] sorts *)

Lemma insert_by_name_perm f l : insert_by_name f l ≡ₚ f :: l.
Proof.
  induction l as [|g l IH]; cbn [insert_by_name]; [reflexivity|].
  destruct (name_le f g); [reflexivity|].
  rewrite IH. apply Permutation_swap.
Qed.

Lemma sorted_by_name_perm l : sorted_by_name l ≡ₚ l.
Proof.
  induction l as [|f l IH]; cbn [sorted_by_name foldr]; [reflexivity|].
  rewrite insert_by_name_perm. constructor. exact IH.
Qed.

Lemma insert_by_name_hd f g l :
  by_name g f -> HdRel by_name g l -> HdRel by_name g (insert_by_name f l).
Proof.
  intros Hgf Hl. destruct l as [|h l]; cbn [insert_by_name].
  - constructor. exact Hgf.
  - destruct (name_le f h); constructor; [exact Hgf|].
    inversion Hl; assumption.
Qed.

Lemma insert_by_name_sorted f l :
  Sorted by_name l -> Sorted by_name (insert_by_name f l).
Proof.
  induction 1 as [|g l Hs IH Hhd]; cbn [insert_by_name].
  - repeat constructor.
  - destruct (name_le f g) eqn:Hfg.
    + constructor; [constructor; assumption|]. constructor. exact Hfg.
    + constructor; [exact IH|]. apply insert_by_name_hd; [|exact Hhd].
      destruct (by_name_total f g) as [H|H]; [|exact H].
      unfold by_name in H. congruence.
Qed.

Lemma sorted_by_name_sorted l : StronglySorted by_name (sorted_by_name l).
Proof.
  apply Sorted_StronglySorted; [apply by_name_trans|].
  induction l as [|f l IH]; cbn [sorted_by_name foldr]; [constructor|].
  apply insert_by_name_sorted, IH.
Qed.

Lemma elem_of_sorted_by_name f l : f ∈ sorted_by_name l <-> f ∈ l.
Proof. rewrite (sorted_by_name_perm l). reflexivity. Qed.

(** *** Endings, case folded *)

Lemma length_lower s : String.length (lower s) = String.length s.
Proof. induction s as [|c s IH]; cbn; congruence. Qed.

Lemma substring_lower s : forall n m,
  String.substring n m (lower s) = lower (String.substring n m s).
Proof.
  induction s as [|c s IH]; intros [|n] [|m]; cbn; try reflexivity.
  - rewrite IH. reflexivity.
  - apply IH.
  - apply IH.
Qed.

Lemma ends_with_lower nm ext :
  ends_with nm ext = true -> ends_with (lower nm) (lower ext) = true.
Proof.
  unfold ends_with. rewrite !length_lower, substring_lower.
  intros [Hlen Heq]%andb_true_iff. apply String.eqb_eq in Heq.
  rewrite Hlen, Heq. apply String.eqb_refl.
Qed.

Lemma elem_of_glob ext f dir :
  f ∈ glob ext dir <-> f ∈ dir /\ ends_with (name f) ext = true.
Proof. unfold glob. rewrite list_elem_of_filter. tauto. Qed.

Lemma elem_of_get_images f dir :
  f ∈ ApplyCorrections.get_images dir <->
  f ∈ dir /\
  (ends_with (name f) ".JPEG" = true \/ ends_with (name f) ".jpeg" = true \/
   ends_with (name f) ".jpg" = true \/ ends_with (name f) ".png" = true).
Proof.
  unfold ApplyCorrections.get_images.
  rewrite elem_of_sorted_by_name, !elem_of_app, !elem_of_glob. tauto.
Qed.
End enumeration.

(** C9 fails as stated: an extension in mixed case is no image for the PDF
    workflow, and [.JPG] is none for the rotation workflow. *)
Lemma image_enumeration_counterexample :
  let mixed := Path "scan.Jpg" 10 in
  let upper := Path "scan.JPG" 10 in
  (image_extension_ci (name mixed) /\ mixed ∉ CreatePdfs.get_image_files [mixed]) /\
  (image_extension_ci (name upper) /\ upper ∉ ApplyCorrections.get_images [upper]).
Proof.
  cbn zeta. repeat split.
  - apply (bool_decide_unpack _). vm_compute. exact I.
  - vm_compute. apply not_elem_of_nil.
  - apply (bool_decide_unpack _). vm_compute. exact I.
  - vm_compute. apply not_elem_of_nil.
Qed.

(** C9, as the code has it.  The PDF workflow enumerates exactly the
    members whose extension is spelled [.jpeg], [.jpg], [.png], [.JPEG],
    [.JPG] or [.PNG], sorted by filename.  The rotation workflow
    enumerates, sorted by filename, members whose name ends in [.jpeg],
    [.jpg] or [.png] in some mix of cases, and among them every member
    whose name ends in [.jpeg], [.jpg], [.png] or [.JPEG]. *)
Theorem image_enumeration (dir : list path) :
  (CreatePdfs.get_image_files dir
     ≡ₚ filter (fun f => suffix (name f) ∈ CreatePdfs.extensions) dir /\
   StronglySorted by_name (CreatePdfs.get_image_files dir)) /\
  ((forall f, f ∈ dir ->
      ends_with (name f) ".jpeg" = true \/ ends_with (name f) ".jpg" = true \/
      ends_with (name f) ".png" = true \/ ends_with (name f) ".JPEG" = true ->
      f ∈ ApplyCorrections.get_images dir) /\
   (forall f, f ∈ ApplyCorrections.get_images dir ->
      f ∈ dir /\ image_ending_ci (name f)) /\
   StronglySorted by_name (ApplyCorrections.get_images dir)).
Proof.
  split; [split|split; [|split]].
  - apply sorted_by_name_perm.
  - apply sorted_by_name_sorted.
  - intros f Hf Hend. apply elem_of_get_images. tauto.
  - intros f [Hf Hend]%elem_of_get_images. split; [exact Hf|].
    unfold image_ending_ci.
    destruct Hend as [H|[H|[H|H]]]; apply ends_with_lower in H; auto.
  - apply sorted_by_name_sorted.
Qed.

Lemma image_enumeration_witness :
  let dir := [Path "b.JPEG" 2; Path "notes.txt" 1; Path "a.png" 3] in
  Path "b.JPEG" 2 ∈ ApplyCorrections.get_images dir /\
  image_ending_ci "b.JPEG".
Proof.
  intros dir.
  destruct (image_enumeration dir) as (_ & Hin & Hout & _).
  assert (H : Path "b.JPEG" 2 ∈ ApplyCorrections.get_images dir).
  { apply Hin; [constructor|].
    right. right. right. reflexivity. }
  split; [exact H|]. apply (Hout _ H).
Defined.

(** ** The scenarios of the specification *)

(** One rotation, one discard and one break marker: the discarded file is
    gone, [a.jpg] is alone in the first section and [c.jpg] opens the
    second. *)
Example scenario_manual :
  let review :=
    PDict {[ "corrections" := PDict {[ "a.jpg" := PInt 90 ]};
             "sectionBreaks" := PList [PStr "c.jpg"];
             "discards" := PList [PStr "b.jpg"] ]} in
  let dir := [Path "d.jpg" 40; Path "b.jpg" 20; Path "a.jpg" 10; Path "c.jpg" 30] in
  CreatePdfs.plan (Some review) dir 200
  = Ok [[(Path "a.jpg" 10, PInt 90)];
        [(Path "c.jpg" 30, PInt 0); (Path "d.jpg" 40, PInt 0)]].
Proof. vm_compute. reflexivity. Qed.

(** Two files of 600 bytes under a bound of 1000: 510.0 fits, 1020.0 does
    not. *)
Example scenario_automatic :
  let a := (Path "a.jpg" 600, PInt 0) in
  let b := (Path "b.jpg" 600, PInt 0) in
  CreatePdfs.auto_split 1000 [a; b] = [[a]; [b]] /\
  Float64.le_int (CreatePdfs.img_size a) 1000 = true /\
  Float64.gt_int (Float64.add (CreatePdfs.img_size a) (CreatePdfs.img_size b)) 1000
  = true.
Proof. vm_compute. auto. Qed.

(** An empty directory: no section and no error, with or without a
    review. *)
Example scenario_empty_directory :
  CreatePdfs.plan None [] 200 = Ok [] /\
  CreatePdfs.plan (Some (PDict ∅)) [Path "notes.txt" 5] 200 = Ok [].
Proof. vm_compute. auto. Qed.

(** A root that is an array loads; the run fails only at the first image
    that is kept, on [corrections.get]. *)
Example scenario_array_root :
  CreatePdfs.plan (Some (PList [])) [] 200 = Ok [] /\
  CreatePdfs.plan (Some (PList [])) [Path "a.jpg" 5] 200 = Raise AttributeError.
Proof. vm_compute. auto. Qed.

(* ===================================================================== *)
(** * Part III: further properties of the two programs *)
(* ===================================================================== *)

(** ** Rotations compose *)

Lemma same_image_refl img : same_image img img.
Proof. repeat split. Qed.

(** X1. On the angles 0, 90, 180 and 270, a rotation by [a] followed by
    a rotation by [b] is the rotation by [a + b] modulo 360, in both
    workflows; so four quarter turns, or 90 followed by 270, give the image
    back. *)
Theorem rotate_image_compose (img : image) (a b : Z) :
  a ∈ [0; 90; 180; 270]%Z -> b ∈ [0; 90; 180; 270]%Z ->
  same_image
    (ApplyCorrections.rotate_image (ApplyCorrections.rotate_image img (PInt a)) (PInt b))
    (ApplyCorrections.rotate_image img (PInt ((a + b) mod 360))) /\
  same_image
    (CreatePdfs.page (CreatePdfs.page img (PInt a)) (PInt b))
    (CreatePdfs.page img (PInt ((a + b) mod 360))).
Proof.
  intros Ha Hb.
  repeat (apply elem_of_cons in Ha as [->|Ha]); [..|apply elem_of_nil in Ha as []];
    repeat (apply elem_of_cons in Hb as [->|Hb]); try (apply elem_of_nil in Hb as []).
  all: repeat match goal with
       | |- context [((?u + ?v) `mod` 360)%Z] =>
           let w := eval vm_compute in ((u + v) mod 360)%Z in
           change ((u + v) mod 360)%Z with w
       end.
  all: split; unfold same_image; cbn; repeat split; try lia;
    intros x y Hx Hy; f_equal; lia.
Qed.

Lemma rotate_image_compose_witness :
  let img := Image 2 3 (fun x y => (N.of_nat x, N.of_nat y, 0%N)) in
  same_image
    (ApplyCorrections.rotate_image
       (ApplyCorrections.rotate_image img (PInt 90)) (PInt 270)) img.
Proof.
  intros img.
  destruct (rotate_image_compose img 90 270) as [H _].
  - apply (bool_decide_unpack _). vm_compute. exact I.
  - apply (bool_decide_unpack _). vm_compute. exact I.
  - exact H.
Defined.

(** ** The correction pipeline and the plan of a run *)

(** X2. When the rotations are not a dict (an array or a string loads as
    the legacy shape), the pipeline raises [AttributeError] as soon as one
    image is kept, and returns no entry when every image is discarded or
    the directory has no image. *)
Theorem filter_discards_not_dict (corrections : pyval) (discards : pyset)
    (all_images : list path) :
  is_dict corrections = false ->
  CreatePdfs.filter_discards corrections discards all_images
  = if forallb (fun f => set_mem (name f) discards) all_images
    then Ok [] else Raise AttributeError.
Proof.
  intros Hc. induction all_images as [|f l IH]; [reflexivity|].
  cbn [CreatePdfs.filter_discards forallb].
  destruct (set_mem (name f) discards); cbn [negb andb]; [exact IH|].
  destruct corrections; try discriminate; reflexivity.
Qed.

Lemma filter_discards_not_dict_witness :
  CreatePdfs.filter_discards (PList []) [PStr "a.jpg"] [Path "a.jpg" 1] = Ok [] /\
  CreatePdfs.filter_discards (PList []) [PStr "a.jpg"] [Path "a.jpg" 1; Path "b.jpg" 1]
  = Raise AttributeError.
Proof.
  split.
  - apply (filter_discards_not_dict (PList []) [PStr "a.jpg"] [Path "a.jpg" 1]).
    reflexivity.
  - apply (filter_discards_not_dict (PList []) [PStr "a.jpg"]
             [Path "a.jpg" 1; Path "b.jpg" 1]).
    reflexivity.
Defined.

Lemma split_sections_is_partition section_breaks max_size images :
  partition_of images (CreatePdfs.split_sections section_breaks max_size images).
Proof.
  unfold CreatePdfs.split_sections. destruct (set_truthy section_breaks).
  - rewrite manual_split_chunks. apply (manual_chunks_partition section_breaks images []).
  - rewrite auto_split_chunks.
    apply (auto_chunks_partition _ images [] Float64.zero).
Qed.

Lemma elem_of_get_image_files f dir :
  f ∈ CreatePdfs.get_image_files dir <->
  f ∈ dir /\ suffix (name f) ∈ CreatePdfs.extensions.
Proof.
  unfold CreatePdfs.get_image_files.
  rewrite elem_of_sorted_by_name, list_elem_of_filter. tauto.
Qed.

Lemma plan_loaded file dir max_size r d :
  CreatePdfs.load_review file = Ok r ->
  CreatePdfs.corrections r = PDict d ->
  CreatePdfs.plan file dir max_size
  = Ok (let images := kept d (CreatePdfs.discards r) (CreatePdfs.get_image_files dir) in
        if CreatePdfs.is_nil images then []
        else CreatePdfs.split_sections (CreatePdfs.section_breaks r) max_size images).
Proof.
  intros Hload Hd. unfold CreatePdfs.plan. rewrite Hload. cbn. rewrite Hd.
  rewrite filter_discards_dict. cbn. fold (kept d (CreatePdfs.discards r)
    (CreatePdfs.get_image_files dir)).
  destruct (CreatePdfs.is_nil _); reflexivity.
Qed.

Lemma plan_partition file dir max_size r d :
  CreatePdfs.load_review file = Ok r ->
  CreatePdfs.corrections r = PDict d ->
  exists sections,
    CreatePdfs.plan file dir max_size = Ok sections /\
    partition_of (kept d (CreatePdfs.discards r) (CreatePdfs.get_image_files dir))
      sections.
Proof.
  intros Hload Hd. rewrite (plan_loaded _ _ _ _ _ Hload Hd). eexists. split; [reflexivity|].
  cbn zeta. destruct (kept _ _ _) as [|e l] eqn:Hk; cbn [CreatePdfs.is_nil].
  - split; [reflexivity|constructor].
  - apply split_sections_is_partition.
Qed.



(** ** More on the paginator *)

Lemma manual_chunks_no_break section_breaks l : forall cur,
  Forall (fun e => is_break section_breaks e = false) l ->
  cur ++ l <> [] ->
  manual_chunks section_breaks cur l = [cur ++ l].
Proof.
  induction l as [|e l IH]; intros cur Hl Hne; cbn [manual_chunks].
  - rewrite app_nil_r in *. destruct cur; [congruence|reflexivity].
  - apply Forall_cons in Hl as [He Hl]. unfold is_break in He. rewrite He.
    cbn [andb]. rewrite IH; [|exact Hl|destruct cur; discriminate].
    rewrite <- app_assoc. reflexivity.
Qed.

(** X4. With a non-empty set of break markers, the bound on the size is
    not applied: when no entry after the first is marked, all the entries
    go into one section, whatever their sizes and whatever [--max-size]. *)
Theorem manual_split_one_section (section_breaks : pyset) (max_size : Z)
    (first : entry) (rest : list entry) :
  set_truthy section_breaks = true ->
  Forall (fun e => is_break section_breaks e = false) rest ->
  CreatePdfs.split_sections section_breaks max_size (first :: rest)
  = [first :: rest].
Proof.
  intros Hset Hrest. unfold CreatePdfs.split_sections. rewrite Hset.
  rewrite manual_split_chunks. cbn [manual_chunks CreatePdfs.is_nil negb app].
  rewrite andb_false_r. apply (manual_chunks_no_break section_breaks rest [first]);
    [exact Hrest|discriminate].
Qed.

Lemma manual_split_one_section_witness :
  let big := (Path "a.jpg" 900000000000, PInt 0) in
  let other := (Path "b.jpg" 900000000000, PInt 0) in
  CreatePdfs.split_sections [PStr "a.jpg"; PStr "gone.jpg"] 1 [big; other]
  = [[big; other]].
Proof.
  intros big other.
  apply (manual_split_one_section [PStr "a.jpg"; PStr "gone.jpg"] 1 big [other]).
  - reflexivity.
  - repeat constructor.
Defined.

Lemma length_concat_nonempty {A} (ls : list (list A)) :
  Forall (fun l => l <> []) ls -> length ls <= length (concat ls).
Proof.
  induction 1 as [|l ls Hl _ IH]; cbn [concat length]; [lia|].
  rewrite length_app. destruct l; [congruence|]. cbn [length]. lia.
Qed.

(** X5. In either mode there are never more sections than entries, and a
    non-empty sequence of entries gives at least one section. *)
Theorem split_sections_count (section_breaks : pyset) (max_size : Z)
    (images : list entry) :
  length (CreatePdfs.split_sections section_breaks max_size images)
    <= length images /\
  (images <> [] ->
   1 <= length (CreatePdfs.split_sections section_breaks max_size images)).
Proof.
  destruct (split_sections_is_partition section_breaks max_size images)
    as [Hcat Hne].
  split.
  - rewrite <- Hcat at 2. apply length_concat_nonempty, Hne.
  - intros Himages.
    destruct (CreatePdfs.split_sections section_breaks max_size images); [|cbn; lia].
    cbn in Hcat. congruence.
Qed.

Lemma split_sections_count_witness :
  1 <= length (CreatePdfs.split_sections [] 200 [(Path "a.jpg" 5, PInt 0)]).
Proof.
  apply (split_sections_count [] 200 [(Path "a.jpg" 5, PInt 0)]). discriminate.
Defined.

(** ** The documents of a run *)
Section documents.
Variable open_rgb : path -> option image.

Lemma create_pdf_outcome (image_data : list entry) :
  CreatePdfs.create_pdf open_rgb image_data
  = CreatePdfs.Outcome (length (decoded open_rgb image_data))
      (if CreatePdfs.is_nil (decoded open_rgb image_data) then None
       else Some (decoded open_rgb image_data))
      (undecoded open_rgb image_data).
Proof.
  unfold CreatePdfs.create_pdf.
  destruct image_data as [|e l]; [reflexivity|]. cbn [CreatePdfs.is_nil].
  destruct (load_loop open_rgb (e :: l) (CreatePdfs.Loaded None [] []))
    as [Hp Hw]; [reflexivity|]. cbn zeta in *.
  unfold pages in Hp. cbn [CreatePdfs.first_image CreatePdfs.warnings app] in Hp, Hw.
  destruct (CreatePdfs.first_image _) as [first|];
    rewrite <- Hp, Hw; cbn [length CreatePdfs.is_nil]; f_equal; lia.
Qed.

Lemma length_decoded_undecoded (l : list entry) :
  length (decoded open_rgb l) + length (undecoded open_rgb l) = length l.
Proof.
  induction l as [|e l IH]; [reflexivity|].
  rewrite (decoded_cons open_rgb e l), (undecoded_cons open_rgb e l), !length_app.
  cbn [length]. rewrite <- IH.
  unfold decoded, undecoded. cbn [omap list_omap]. rewrite filter_cons, filter_nil.
  destruct (open_rgb e.1);
    [rewrite decide_False by discriminate|rewrite decide_True by reflexivity];
    cbn; lia.
Qed.

Lemma decoded_concat (sections : list (list entry)) :
  decoded open_rgb (concat sections) = concat (decoded open_rgb <$> sections).
Proof.
  induction sections as [|s ss IH]; [reflexivity|].
  cbn [concat fmap list_fmap]. unfold decoded at 1. rewrite omap_app.
  fold (decoded open_rgb s). fold (decoded open_rgb (concat ss)). rewrite IH.
  reflexivity.
Qed.

Lemma documents_pages (sections : list section) : forall nm : nat -> string,
  concat (snd <$> documents
            (imap (fun i s => (nm i, CreatePdfs.create_pdf open_rgb s)) sections))
  = concat (decoded open_rgb <$> sections).
Proof.
  induction sections as [|s ss IH]; intros nm; [reflexivity|].
  rewrite imap_cons. unfold documents. cbn [omap list_omap fst snd].
  fold (documents (imap ((fun i s0 => (nm i, CreatePdfs.create_pdf open_rgb s0)) ∘ S) ss)).
  rewrite create_pdf_outcome. cbn [CreatePdfs.saved fmap list_fmap concat].
  rewrite <- (IH (nm ∘ S)).
  destruct (decoded open_rgb s) as [|p ps]; cbn; reflexivity.
Qed.
End documents.

(** X6. [create_pdf] accounts for every entry of the section: an entry is
    a page of the count or it is warned about.  A document is saved exactly
    when the count is not 0, and then it has as many pages as the count:
    no empty document is ever written. *)
Theorem create_pdf_accounting (open_rgb : path -> option image)
    (image_data : list entry) :
  let out := CreatePdfs.create_pdf open_rgb image_data in
  CreatePdfs.returned out + length (CreatePdfs.warned out) = length image_data /\
  (CreatePdfs.saved out = None <-> CreatePdfs.returned out = 0) /\
  (forall doc, CreatePdfs.saved out = Some doc ->
     doc <> [] /\ length doc = CreatePdfs.returned out).
Proof.
  cbn zeta. rewrite create_pdf_outcome.
  cbn [CreatePdfs.returned CreatePdfs.warned CreatePdfs.saved].
  split; [apply length_decoded_undecoded|].
  destruct (decoded open_rgb image_data) as [|p ps]; cbn [CreatePdfs.is_nil length].
  - split; [tauto|]. discriminate.
  - split; [split; discriminate|]. intros doc [= <-]. split; [discriminate|reflexivity].
Qed.

Lemma create_pdf_accounting_witness :
  let blank := Image 1 1 (fun _ _ => (0, 0, 0)%N) in
  let open_rgb := fun f : path => if String.eqb (name f) "b.jpg" then None else Some blank in
  let s := [(Path "a.jpg" 3, PInt 0); (Path "b.jpg" 3, PInt 90)] in
  CreatePdfs.saved (CreatePdfs.create_pdf open_rgb s) = Some [blank] /\
  [blank] <> [] /\
  length [blank] = CreatePdfs.returned (CreatePdfs.create_pdf open_rgb s).
Proof.
  intros blank open_rgb s.
  assert (Hsaved : CreatePdfs.saved (CreatePdfs.create_pdf open_rgb s) = Some [blank])
    by reflexivity.
  split; [exact Hsaved|].
  destruct (create_pdf_accounting open_rgb s) as (_ & _ & H).
  exact (H [blank] Hsaved).
Defined.

(** *** The names of the documents *)

Lemma string_length_app (s t : string) :
  String.length (s +:+ t) = String.length s + String.length t.
Proof.
  induction s as [|a s IH]; [reflexivity|].
  change (S (String.length (s +:+ t)) = S (String.length s + String.length t)).
  congruence.
Qed.

Lemma string_app_inj_r (t s1 s2 : string) : s1 +:+ t = s2 +:+ t -> s1 = s2.
Proof.
  revert s2. induction s1 as [|a s1 IH]; intros [|b s2] H.
  - reflexivity.
  - apply (f_equal String.length) in H.
    rewrite !string_length_app in H. cbn in H. lia.
  - apply (f_equal String.length) in H.
    rewrite !string_length_app in H. cbn in H. lia.
  - change (String a (s1 +:+ t) = String b (s2 +:+ t)) in H.
    injection H as -> H. f_equal. apply IH, H.
Qed.

Lemma part_name_inj (prefix : string) : Inj (=) (=) (part_name prefix).
Proof.
  intros n1 n2 H. unfold part_name in H.
  apply (inj (String.app prefix)) in H.
  apply (inj (String.app "_part")) in H.
  apply string_app_inj_r in H. apply (inj pretty) in H. exact H.
Qed.

(** X7. The documents of a run have distinct names, one per section and
    in the order of the sections: no document overwrites another, and the
    section at index [i] is the part [i + 1]. *)
Theorem write_pdfs_names (open_rgb : path -> option image) (prefix : string)
    (sections : list section) :
  (write_pdfs open_rgb prefix sections).*1
    = (fun i => part_name prefix (i + 1)) <$> seq 0 (length sections) /\
  NoDup ((write_pdfs open_rgb prefix sections).*1) /\
  NoDup ((documents (write_pdfs open_rgb prefix sections)).*1).
Proof.
  assert (Hnames : (write_pdfs open_rgb prefix sections).*1
                   = (fun i => part_name prefix (i + 1)) <$> seq 0 (length sections)).
  { unfold write_pdfs. rewrite fmap_imap.
    apply (imap_seq_0 sections (fun i => part_name prefix (i + 1))). }
  assert (Hnd : NoDup ((write_pdfs open_rgb prefix sections).*1)).
  { rewrite Hnames. apply NoDup_fmap_2; [|apply NoDup_seq].
    intros i j Hij. apply part_name_inj in Hij. lia. }
  split; [exact Hnames|]. split; [exact Hnd|].
  revert Hnd. generalize (write_pdfs open_rgb prefix sections).
  induction l as [|[n o] l IH]; intros Hnd; [constructor|].
  unfold documents. cbn [omap list_omap fst snd].
  fold (documents l). apply NoDup_cons in Hnd as [Hn Hnd].
  assert (Hsub : forall x, x ∈ (documents l).*1 -> x ∈ l.*1).
  { intros x Hx. apply list_elem_of_fmap in Hx as ([x' p] & -> & Hx).
    unfold documents in Hx. apply list_elem_of_omap in Hx as ([n' o'] & Hin & Hsome).
    cbn in Hsome. destruct (CreatePdfs.saved o'); [|discriminate].
    injection Hsome as <- <-. apply list_elem_of_fmap. exists (n', o'). auto. }
  destruct (CreatePdfs.saved o); cbn; [|apply IH, Hnd].
  constructor; [|apply IH, Hnd]. intros Hin. apply Hn, Hsub, Hin.
Qed.

(** *** Runs of [main] *)

Lemma section_info_nonempty (s : section) : s <> [] -> is_Some (section_info s).
Proof.
  intros Hs. unfold section_info. destruct s as [|e s]; [congruence|].
  destruct (last (e :: s)) eqn:Hlast; [eauto|].
  apply last_None in Hlast. discriminate.
Qed.

Lemma plan_nonempty file dir max_size sections :
  CreatePdfs.plan file dir max_size = Ok sections ->
  Forall (fun s => s <> []) sections.
Proof.
  unfold CreatePdfs.plan. destruct (CreatePdfs.load_review file) as [r|]; [|discriminate].
  cbn. destruct (CreatePdfs.filter_discards _ _ _) as [images|]; [|discriminate].
  cbn. destruct (CreatePdfs.is_nil images); intros [= <-]; [constructor|].
  apply split_sections_is_partition.
Qed.

Lemma mapM_section_info sections :
  Forall (fun s => s <> []) sections -> is_Some (mapM section_info sections).
Proof.
  intros Hne. apply mapM_is_Some. eapply Forall_impl; [exact Hne|].
  intros s Hs. apply section_info_nonempty, Hs.
Qed.



(** ** What the rotation workflow writes and counts *)
Section rotation_outputs.
Import ApplyCorrections.
Variable imread : path -> imread_result.
Variable imwrite_raises : path -> bool.
Variable corrections : gmap string pyval.
Variable copy_unchanged : bool.

Lemma run_snoc (l : list path) (f : path) :
  run imread imwrite_raises corrections copy_unchanged (l ++ [f])
  = step imread imwrite_raises corrections copy_unchanged
      (run imread imwrite_raises corrections copy_unchanged l) f.
Proof. unfold run. rewrite fold_left_app. reflexivity. Qed.

(** The state of the loop after the images [l]. *)
Lemma run_invariant (l : list path) :
  let s := (run imread imwrite_raises corrections copy_unchanged l).1 in
  let out := (run imread imwrite_raises corrections copy_unchanged l).2 in
  out = omap (written_for imread imwrite_raises corrections copy_unchanged) l /\
  rotated s + errors s
    = length (filter (fun f => is_Some (corrections !! name f)) l) /\
  copied s + skipped s
    = length (filter (fun f => corrections !! name f = None) l) /\
  rotated s + copied s = length out /\
  (copy_unchanged = false -> copied s = 0) /\
  (copy_unchanged = true -> skipped s = 0).
Proof.
  cbn zeta. induction l as [|f l IH] using rev_ind.
  - cbn. repeat split; reflexivity.
  - rewrite run_snoc.
    destruct (run imread imwrite_raises corrections copy_unchanged l)
      as [[r c k e] out].
    cbn [fst snd rotated copied skipped errors] in IH.
    destruct IH as (Hout & Hre & Hck & Hrc & Hno & Hyes).
    rewrite omap_app, !filter_app, !length_app, !filter_cons, !filter_nil.
    unfold step, written_for. cbn [omap list_omap].
    destruct (corrections !! name f) as [angle|] eqn:Hc.
    + rewrite decide_True by eauto. rewrite decide_False by discriminate.
      destruct (imread f) as [| |img]; [| |destruct (imwrite_raises f)];
        cbn [fst snd rotated copied skipped errors length app];
        rewrite ?length_app; cbn [length]; rewrite ?app_nil_r;
        (split; [first [exact Hout|f_equal; exact Hout]|]); repeat split; try lia; auto.
    + rewrite decide_False by (intros [? ?]; discriminate).
      rewrite decide_True by reflexivity.
      destruct copy_unchanged;
        cbn [fst snd rotated copied skipped errors length app];
        rewrite ?length_app; cbn [length]; rewrite ?app_nil_r;
        (split; [first [exact Hout|f_equal; exact Hout]|]); repeat split; try lia; auto; try discriminate.
Qed.

Lemma written_for_name f n o :
  written_for imread imwrite_raises corrections copy_unchanged f = Some (n, o) ->
  n = name f.
Proof.
  unfold written_for. repeat case_match; congruence.
Qed.

Lemma outputs_names (l : list path) :
  (omap (written_for imread imwrite_raises corrections copy_unchanged) l).*1
    `sublist_of` (name <$> l).
Proof.
  induction l as [|f l IH]; [constructor|].
  cbn [omap list_omap].
  destruct (written_for imread imwrite_raises corrections copy_unchanged f)
    as [[n o]|] eqn:Hf; cbn.
  - apply written_for_name in Hf as ->. constructor. exact IH.
  - constructor. exact IH.
Qed.
End rotation_outputs.





(** ** The two enumerations compared *)
Section endings.

Lemma substring_0_length (s : string) :
  String.substring 0 (String.length s) s = s.
Proof. induction s as [|a s IH]; cbn; congruence. Qed.

Lemma substring_split (s : string) : forall n,
  n <= String.length s ->
  s = String.substring 0 n s +:+ String.substring n (String.length s - n) s.
Proof.
  induction s as [|a s IH]; intros [|n] Hn; cbn in Hn; try lia.
  - reflexivity.
  - rewrite Nat.sub_0_r, substring_0_length. reflexivity.
  - cbn [String.substring String.length Nat.sub].
    change (String a s = String a (String.substring 0 n s
                                   +:+ String.substring n (String.length s - n) s)).
    f_equal. apply IH. lia.
Qed.

Lemma ends_with_app (nm ext : string) :
  ends_with nm ext = true ->
  exists pre,
    nm = pre +:+ ext /\ String.length nm = String.length pre + String.length ext.
Proof.
  unfold ends_with. intros [Hlen Heq]%andb_true_iff.
  apply Nat.leb_le in Hlen. apply String.eqb_eq in Heq.
  exists (String.substring 0 (String.length nm - String.length ext) nm).
  assert (Hsplit := substring_split nm (String.length nm - String.length ext)).
  replace (String.length nm - (String.length nm - String.length ext))
    with (String.length ext) in Hsplit by lia.
  rewrite Heq in Hsplit. split; [apply Hsplit; lia|].
  rewrite Hsplit at 1 by lia. apply string_length_app.
Qed.

Lemma rfind_app_dot (pre rest : string) :
  rfind "." rest = None ->
  rfind "." (pre +:+ String "." rest) = Some (String.length pre).
Proof.
  intros Hrest. induction pre as [|a pre IH].
  - change (rfind "." (String "." rest) = Some 0). cbn. rewrite Hrest. reflexivity.
  - change (rfind "." (String a (pre +:+ String "." rest))
            = Some (S (String.length pre))).
    cbn [rfind]. rewrite IH. reflexivity.
Qed.

Lemma substring_skip (pre t : string) (m : nat) :
  String.substring (String.length pre) m (pre +:+ t) = String.substring 0 m t.
Proof.
  induction pre as [|a pre IH]; [reflexivity|].
  change (String.substring (S (String.length pre)) m (String a (pre +:+ t))
          = String.substring 0 m t).
  destruct m; exact IH.
Qed.

Lemma suffix_app (pre ext : string) :
  pre <> "" -> dotted ext -> suffix (pre +:+ ext) = ext.
Proof.
  intros Hpre (rest & -> & Hrest & Hdot). unfold suffix.
  rewrite rfind_app_dot by exact Hdot.
  rewrite string_length_app. cbn [String.length].
  replace (0 <? String.length pre) with true
    by (symmetry; apply Nat.ltb_lt; destruct pre; [congruence|cbn; lia]).
  replace (String.length pre <? String.length pre + S (String.length rest) - 1)
    with true
    by (symmetry; apply Nat.ltb_lt; destruct rest; [congruence|cbn; lia]).
  cbn [andb].
  replace (String.length pre + S (String.length rest) - String.length pre)
    with (String.length (String "." rest)) by (cbn; lia).
  rewrite substring_skip. apply substring_0_length.
Qed.

Lemma ends_with_rfind (nm ext : string) :
  dotted ext -> ends_with nm ext = true ->
  rfind "." nm = Some (String.length nm - String.length ext).
Proof.
  intros (rest & -> & _ & Hdot) Hend.
  destruct (ends_with_app _ _ Hend) as (pre & Hnm & Hlen).
  rewrite Hnm at 1. rewrite rfind_app_dot by exact Hdot. f_equal. lia.
Qed.

(** A name has one extension at most. *)
Lemma ends_with_unique (nm e1 e2 : string) :
  dotted e1 -> dotted e2 ->
  ends_with nm e1 = true -> ends_with nm e2 = true -> e1 = e2.
Proof.
  intros Hd1 Hd2 H1 H2.
  assert (Hr1 := ends_with_rfind nm e1 Hd1 H1).
  assert (Hr2 := ends_with_rfind nm e2 Hd2 H2).
  unfold ends_with in H1, H2.
  apply andb_true_iff in H1 as [Hl1 Hs1]. apply andb_true_iff in H2 as [Hl2 Hs2].
  apply Nat.leb_le in Hl1, Hl2. apply String.eqb_eq in Hs1, Hs2.
  assert (Hlen : String.length e1 = String.length e2) by (rewrite Hr1 in Hr2; injection Hr2; lia).
  rewrite <- Hs1, <- Hs2, Hlen. reflexivity.
Qed.

Lemma dotted_JPEG : dotted ".JPEG".
Proof. exists "JPEG". repeat split. discriminate. Qed.
Lemma dotted_jpeg : dotted ".jpeg".
Proof. exists "jpeg". repeat split. discriminate. Qed.
Lemma dotted_jpg : dotted ".jpg".
Proof. exists "jpg". repeat split. discriminate. Qed.
Lemma dotted_png : dotted ".png".
Proof. exists "png". repeat split. discriminate. Qed.

Lemma glob_disjoint (e1 e2 : string) (dir : list path) (f : path) :
  dotted e1 -> dotted e2 -> e1 <> e2 -> f ∈ glob e1 dir -> f ∉ glob e2 dir.
Proof.
  intros Hd1 Hd2 Hne [_ H1]%elem_of_glob [_ H2]%elem_of_glob.
  apply Hne. exact (ends_with_unique _ _ _ Hd1 Hd2 H1 H2).
Qed.

Lemma NoDup_glob ext dir : NoDup dir -> NoDup (glob ext dir).
Proof. intros Hnd. unfold glob. apply NoDup_filter, Hnd. Qed.

Lemma NoDup_names_inj (l : list path) (f g : path) :
  NoDup (name <$> l) -> f ∈ l -> g ∈ l -> name f = name g -> f = g.
Proof.
  induction l as [|h l IH]; intros Hnd Hf Hg Hname; [inversion Hf|].
  rewrite fmap_cons in Hnd. apply NoDup_cons in Hnd as [Hh Hnd].
  apply elem_of_cons in Hf as [->|Hf]; apply elem_of_cons in Hg as [->|Hg].
  - reflexivity.
  - exfalso. apply Hh. rewrite Hname. apply list_elem_of_fmap. eauto.
  - exfalso. apply Hh. rewrite <- Hname. apply list_elem_of_fmap. eauto.
  - apply IH; assumption.
Qed.

Lemma sorted_by_name_order_free (l1 l2 : list path) :
  l1 ≡ₚ l2 -> NoDup (name <$> l1) -> sorted_by_name l1 = sorted_by_name l2.
Proof.
  intros Hperm Hnd.
  apply (StronglySorted_unique_strong by_name);
    try apply sorted_by_name_sorted.
  - intros f g Hf Hg Hfg Hgf.
    apply (proj1 (elem_of_sorted_by_name _ _)) in Hf.
    apply (proj1 (elem_of_sorted_by_name _ _)) in Hg.
    rewrite <- Hperm in Hg.
    apply (NoDup_names_inj l1 f g Hnd Hf Hg).
    apply String.leb_antisym; assumption.
  - rewrite !sorted_by_name_perm. exact Hperm.
Qed.

Lemma NoDup_names_sub (l k : list path) :
  NoDup (name <$> k) -> l `sublist_of` k -> NoDup (name <$> l).
Proof.
  intros Hnd Hsub. apply (sublist_NoDup _ (name <$> k)); [exact Hnd|].
  apply fmap_sublist, Hsub.
Qed.
Lemma NoDup_globs (dir : list path) :
  NoDup dir ->
  NoDup (glob ".JPEG" dir ++ glob ".jpeg" dir ++ glob ".jpg" dir ++ glob ".png" dir).
Proof.
  intros Hnd.
  apply NoDup_app. split; [apply NoDup_glob, Hnd|]. split.
  { intros f Hf Hin. apply elem_of_app in Hin as [Hin|Hin];
      [|apply elem_of_app in Hin as [Hin|Hin]]; revert Hin.
    - apply (glob_disjoint ".JPEG" ".jpeg" dir f dotted_JPEG dotted_jpeg);
        [discriminate|exact Hf].
    - apply (glob_disjoint ".JPEG" ".jpg" dir f dotted_JPEG dotted_jpg);
        [discriminate|exact Hf].
    - apply (glob_disjoint ".JPEG" ".png" dir f dotted_JPEG dotted_png);
        [discriminate|exact Hf]. }
  apply NoDup_app. split; [apply NoDup_glob, Hnd|]. split.
  { intros f Hf Hin. apply elem_of_app in Hin as [Hin|Hin]; revert Hin.
    - apply (glob_disjoint ".jpeg" ".jpg" dir f dotted_jpeg dotted_jpg);
        [discriminate|exact Hf].
    - apply (glob_disjoint ".jpeg" ".png" dir f dotted_jpeg dotted_png);
        [discriminate|exact Hf]. }
  apply NoDup_app. split; [apply NoDup_glob, Hnd|]. split; [|apply NoDup_glob, Hnd].
  intros f Hf.
  apply (glob_disjoint ".jpg" ".png" dir f dotted_jpg dotted_png);
    [discriminate|exact Hf].
Qed.

Lemma elem_of_globs (dir : list path) (f : path) :
  f ∈ glob ".JPEG" dir ++ glob ".jpeg" dir ++ glob ".jpg" dir ++ glob ".png" dir ->
  f ∈ dir.
Proof.
  intros Hf. repeat (apply elem_of_app in Hf as [Hf|Hf]);
    apply elem_of_glob in Hf; tauto.
Qed.
End endings.

(** X11. Every member that the rotation workflow enumerates is also
    enumerated by the PDF workflow, unless its whole name is [.JPEG],
    [.jpeg], [.jpg] or [.png]: such a name matches a glob, and has no
    extension for [Path.suffix]. *)
Theorem get_images_subset (dir : list path) (f : path) :
  f ∈ ApplyCorrections.get_images dir ->
  name f ∉ [".JPEG"; ".jpeg"; ".jpg"; ".png"] ->
  f ∈ CreatePdfs.get_image_files dir.
Proof.
  intros [Hdir Hend]%elem_of_get_images Hbare.
  apply elem_of_get_image_files. split; [exact Hdir|].
  assert (Hsuffix : forall ext, dotted ext -> ext ∈ [".JPEG"; ".jpeg"; ".jpg"; ".png"] ->
            ends_with (name f) ext = true -> suffix (name f) = ext).
  { intros ext Hdot Hin He. destruct (ends_with_app _ _ He) as (pre & Hnm & _).
    rewrite Hnm. apply suffix_app; [|exact Hdot].
    intros ->. apply Hbare. rewrite Hnm. exact Hin. }
  destruct Hend as [H|[H|[H|H]]].
  - rewrite (Hsuffix ".JPEG" dotted_JPEG); [|set_solver|exact H].
    unfold CreatePdfs.extensions. set_solver.
  - rewrite (Hsuffix ".jpeg" dotted_jpeg); [|set_solver|exact H].
    unfold CreatePdfs.extensions. set_solver.
  - rewrite (Hsuffix ".jpg" dotted_jpg); [|set_solver|exact H].
    unfold CreatePdfs.extensions. set_solver.
  - rewrite (Hsuffix ".png" dotted_png); [|set_solver|exact H].
    unfold CreatePdfs.extensions. set_solver.
Qed.

Lemma get_images_subset_witness :
  let dir := [Path "b.JPEG" 2; Path ".jpg" 1] in
  Path "b.JPEG" 2 ∈ CreatePdfs.get_image_files dir.
Proof.
  intros dir. apply (get_images_subset dir (Path "b.JPEG" 2)).
  - vm_compute. repeat constructor.
  - apply (bool_decide_unpack _). vm_compute. exact I.
Defined.

(** X12. The rotation workflow enumerates no member twice: the four globs
    do not overlap, since a name has one extension.  For members of
    distinct names, each enumeration depends on the members only, not on
    the order in which the directory lists them, and has distinct names. *)
Theorem enumeration_order_free (dir1 dir2 : list path) :
  (NoDup dir1 -> NoDup (ApplyCorrections.get_images dir1)) /\
  (dir1 ≡ₚ dir2 -> NoDup (name <$> dir1) ->
   CreatePdfs.get_image_files dir1 = CreatePdfs.get_image_files dir2 /\
   ApplyCorrections.get_images dir1 = ApplyCorrections.get_images dir2 /\
   NoDup (name <$> CreatePdfs.get_image_files dir1)).
Proof.
  split.
  - intros Hnd. unfold ApplyCorrections.get_images.
    rewrite sorted_by_name_perm. apply NoDup_globs, Hnd.
  - intros Hperm Hnd. split; [|split].
    + unfold CreatePdfs.get_image_files. apply sorted_by_name_order_free.
      * rewrite Hperm. reflexivity.
      * apply (NoDup_names_sub _ dir1 Hnd), sublist_filter.
    + unfold ApplyCorrections.get_images. apply sorted_by_name_order_free.
      * unfold glob. rewrite Hperm. reflexivity.
      * assert (Hd : NoDup dir1) by (eapply NoDup_fmap_1, Hnd).
        apply NoDup_fmap_2_strong; [|apply NoDup_globs, Hd].
        intros f g Hf Hg Hname.
        apply (NoDup_names_inj dir1 f g Hnd); [| |exact Hname];
          eapply elem_of_globs; eassumption.
    + unfold CreatePdfs.get_image_files. rewrite sorted_by_name_perm.
      apply (NoDup_names_sub _ dir1 Hnd), sublist_filter.
Qed.

Lemma enumeration_order_free_witness :
  let dir1 := [Path "b.jpg" 2; Path "a.png" 1; Path "c.JPEG" 3] in
  let dir2 := [Path "c.JPEG" 3; Path "b.jpg" 2; Path "a.png" 1] in
  NoDup (ApplyCorrections.get_images dir1) /\
  CreatePdfs.get_image_files dir1 = CreatePdfs.get_image_files dir2.
Proof.
  intros dir1 dir2.
  destruct (enumeration_order_free dir1 dir2) as [Hnd Hfree].
  split.
  - apply Hnd, (NoDup_fmap_1 name). apply (bool_decide_unpack _). vm_compute. exact I.
  - apply Hfree.
    + unfold dir1, dir2. symmetry. apply (Permutation_cons_append [_; _] _).
    + apply (bool_decide_unpack _). vm_compute. exact I.
Defined.

(** ** The automatic split closes a section only on overflow *)

Lemma auto_chunks_greedy (max_bytes : Z) (l : list entry) : forall cur size,
  cur <> [] -> size = section_size cur ->
  exists pre rest,
    auto_chunks max_bytes cur size l = (cur ++ pre) :: rest /\
    closed_by_overflow max_bytes ((cur ++ pre) :: rest).
Proof.
  induction l as [|e l IH]; intros cur size Hcur Hsize; cbn [auto_chunks].
  - exists [], []. rewrite app_nil_r. destruct cur; [congruence|].
    split; [reflexivity|]. cbn. auto.
  - apply is_nil_false in Hcur as Hn. rewrite Hn, andb_true_r.
    destruct (Float64.gt_int _ _) eqn:Hgt.
    + destruct (IH [e] (Float64.add Float64.zero (CreatePdfs.img_size e)))
        as (pre & rest & -> & Hclosed); [discriminate|reflexivity|].
      exists [], (([e] ++ pre) :: rest). rewrite app_nil_r.
      split; [reflexivity|]. cbn [closed_by_overflow app].
      split; [rewrite <- Hsize; exact Hgt|exact Hclosed].
    + destruct (IH (cur ++ [e]) (Float64.add size (CreatePdfs.img_size e)))
        as (pre & rest & -> & Hclosed).
      { destruct cur; discriminate. }
      { subst size. symmetry. apply section_size_snoc. }
      exists (e :: pre), rest. rewrite <- app_assoc in *. auto.
Qed.

(** X13. The automatic split never closes a section early: each section
    but the last is followed by a section whose first entry, added to the
    size of the closed one, exceeds [max_bytes]. *)
Theorem auto_split_greedy (max_bytes : Z) (images : list entry) :
  closed_by_overflow max_bytes (CreatePdfs.auto_split max_bytes images).
Proof.
  rewrite auto_split_chunks. destruct images as [|e l]; [exact I|].
  cbn [auto_chunks CreatePdfs.is_nil negb app]. rewrite andb_false_r.
  destruct (auto_chunks_greedy max_bytes l [e]
              (Float64.add Float64.zero (CreatePdfs.img_size e)))
    as (pre & rest & -> & Hclosed); [discriminate|reflexivity|exact Hclosed].
Qed.

(** ** Sums of the floats of the program never decrease *)
Section float64_order.
Import Float64.
Local Open Scope Z_scope.

Lemma digits2_pos_upper p : Zpos p < 2 ^ Zpos (digits2_pos p).
Proof.
  induction p as [p IH|p IH|]; cbn [digits2_pos]; try (cbn; lia).
  all: rewrite Pos2Z.inj_succ, Z.pow_succ_r by lia; lia.
Qed.

Lemma scaled_mono m1 m2 e : m1 <= m2 -> scaled m1 e <= scaled m2 e.
Proof.
  intros H. unfold scaled. apply Z.mul_le_mono_nonneg_r; [|exact H].
  apply Z.pow_nonneg. lia.
Qed.

(** Comparing a finite float with an int is comparing scaled integers. *)
Lemma gt_int_scaled m e n :
  -1074 <= e ->
  gt_int (S754_finite false m e) n = true <-> n * 2 ^ 1074 < scaled (Zpos m) e.
Proof.
  intros He. unfold gt_int, signed, scaled.
  destruct (0 <=? e) eqn:H0.
  - apply Z.leb_le in H0. rewrite Z.gtb_gt.
    rewrite Z.pow_add_r by lia. rewrite Z.mul_assoc.
    assert (0 < 2 ^ 1074) by (apply Z.pow_pos_nonneg; lia).
    split; intros H1.
    + apply Z.mul_lt_mono_pos_r; [assumption|lia].
    + apply Z.mul_lt_mono_pos_r in H1; [lia|assumption].
  - apply Z.leb_gt in H0. rewrite Z.gtb_gt.
    replace (2 ^ 1074) with (2 ^ (- e) * 2 ^ (e + 1074))
      by (rewrite <- Z.pow_add_r by lia; f_equal; lia).
    rewrite Z.mul_assoc.
    assert (0 < 2 ^ (e + 1074)) by (apply Z.pow_pos_nonneg; lia).
    split; intros H1.
    + apply Z.mul_lt_mono_pos_r; [assumption|lia].
    + apply Z.mul_lt_mono_pos_r in H1; [lia|assumption].
Qed.

(** The shift of [shr_fexp] on a positive mantissa in range. *)
Lemma shr_fexp_cases m e l r e' :
  0 < m -> -1074 <= e -> shr_fexp prec emax m e l = (r, e') ->
  (shr_m r = m /\ e' = e /\ Zdigits2 m <= 53) \/
  (exists n, 0 < n /\ n = Zdigits2 m - 53 /\ shr_m r = m / 2 ^ n /\ e' = e + n).
Proof.
  intros Hm He. destruct m as [|p|p]; try lia.
  unfold shr_fexp, shr, fexp, emin, prec, emax. cbn [Zdigits2].
  destruct (Z.max (Z.pos (digits2_pos p) + e - 53) (3 - 1024 - 53) - e)
    as [|q|q] eqn:Hn; intros [= <- <-]; rewrite ?shr_m_of_loc.
  - left. repeat split; lia.
  - right. exists (Z.pos q).
    rewrite iter_shr_1, shr_m_of_loc by (rewrite shr_m_of_loc; lia).
    repeat split; lia.
  - left. repeat split; lia.
Qed.

Lemma shr_fexp_bounded m e l r e' :
  0 < m -> -1074 <= e -> shr_fexp prec emax m e l = (r, e') ->
  shr_m r < 2 ^ 53.
Proof.
  intros Hm He Hshr.
  destruct m as [|p|p]; try lia.
  pose proof (digits2_pos_upper p) as Hup.
  destruct (shr_fexp_cases _ _ _ _ _ Hm He Hshr)
    as [(-> & _ & Hd)|(n & Hn & Hnd & -> & _)]; cbn [Zdigits2] in *.
  - eapply Z.lt_le_trans; [exact Hup|]. apply Z.pow_le_mono_r; lia.
  - apply Z.div_lt_upper_bound; [apply Z.pow_pos_nonneg; lia|].
    rewrite <- Z.pow_add_r by lia.
    replace (n + 53) with (Z.pos (digits2_pos p)) by lia. exact Hup.
Qed.

Lemma shr_fexp_ge m e l r e' my ey :
  0 < m -> -1074 <= e -> 0 < my < 2 ^ 53 -> -1074 <= ey ->
  scaled my ey <= scaled m e ->
  shr_fexp prec emax m e l = (r, e') ->
  scaled my ey <= scaled (shr_m r) e'.
Proof.
  intros Hm He Hmy Hey Hle Hshr.
  destruct m as [|p|p]; try lia.
  pose proof (digits2_pos_lower p) as Hlow.
  destruct (shr_fexp_cases _ _ _ _ _ Hm He Hshr)
    as [(-> & -> & _)|(n & Hn & Hnd & -> & ->)]; [exact Hle|].
  cbn [Zdigits2] in Hnd. unfold scaled in *.
  assert (Hpn : 0 < 2 ^ n) by (apply Z.pow_pos_nonneg; lia).
  destruct (Z.le_gt_cases (e + n) ey) as [Hcase|Hcase].
  - (* the reference float is a multiple of the new unit *)
    replace (ey + 1074) with ((ey - (e + n)) + (e + n + 1074)) by lia.
    rewrite Z.pow_add_r by lia. rewrite Z.mul_assoc.
    apply Z.mul_le_mono_nonneg_r; [apply Z.pow_nonneg; lia|].
    apply Z.div_le_lower_bound; [exact Hpn|].
    replace (ey + 1074) with ((ey - (e + n)) + n + (e + 1074)) in Hle by lia.
    rewrite !Z.pow_add_r in Hle by lia.
    assert (Hpe : 0 < 2 ^ (e + 1074)) by (apply Z.pow_pos_nonneg; lia).
    rewrite !Z.mul_assoc in Hle.
    apply Z.mul_le_mono_pos_r in Hle; [|exact Hpe]. lia.
  - (* the sum has a larger exponent than the reference float *)
    assert (H52 : 2 ^ 52 <= Z.pos p / 2 ^ n).
    { apply Z.div_le_lower_bound; [exact Hpn|].
      rewrite <- Z.pow_add_r by lia.
      replace (n + 52) with (Z.pos (digits2_pos p) - 1) by lia. exact Hlow. }
    apply Z.le_trans with (2 ^ 53 * 2 ^ (ey + 1074)).
    { apply Z.mul_le_mono_nonneg_r; [apply Z.pow_nonneg; lia|lia]. }
    apply Z.le_trans with (2 ^ 52 * 2 ^ (e + n + 1074)).
    { rewrite <- !Z.pow_add_r by lia. apply Z.pow_le_mono_r; lia. }
    apply Z.mul_le_mono_nonneg_r; [apply Z.pow_nonneg; lia|exact H52].
Qed.

(** Rounding a positive mantissa gives a float of the program that is at
    least every float of the program below the exact value. *)
Lemma binary_round_aux_ok m e l :
  0 < m -> -1074 <= e -> float_ok (binary_round_aux prec emax false m e l).
Proof.
  intros Hm He. unfold binary_round_aux.
  destruct (shr_fexp prec emax m e l) as [r1 e1] eqn:H1.
  destruct (shr_fexp_positive _ _ _ _ _ Hm He H1) as [Hr1 He1].
  pose proof (round_nearest_even_ge (shr_m r1) (loc_of_shr_record r1)) as Hr.
  destruct (shr_fexp prec emax _ e1 loc_Exact) as [r2 e2] eqn:H2.
  assert (Hb : shr_m r2 < 2 ^ 53)
    by (eapply shr_fexp_bounded; [| |exact H2]; lia).
  apply shr_fexp_positive in H2; [|lia..]. destruct H2 as [Hr2 He2].
  destruct (shr_m r2) as [|q|q]; try lia.
  destruct (e2 <=? emax - prec); cbn; [split; lia|exact I].
Qed.

Lemma binary_round_aux_ge m e l my ey :
  0 < m -> -1074 <= e -> 0 < my < 2 ^ 53 -> -1074 <= ey ->
  scaled my ey <= scaled m e ->
  match binary_round_aux prec emax false m e l with
  | S754_infinity false => True
  | S754_finite false m' e' => scaled my ey <= scaled (Zpos m') e'
  | _ => False
  end.
Proof.
  intros Hm He Hmy Hey Hle. unfold binary_round_aux.
  destruct (shr_fexp prec emax m e l) as [r1 e1] eqn:H1.
  assert (Hge1 := shr_fexp_ge _ _ _ _ _ _ _ Hm He Hmy Hey Hle H1).
  destruct (shr_fexp_positive _ _ _ _ _ Hm He H1) as [Hr1 He1].
  pose proof (round_nearest_even_ge (shr_m r1) (loc_of_shr_record r1)) as Hr.
  destruct (shr_fexp prec emax _ e1 loc_Exact) as [r2 e2] eqn:H2.
  assert (Hge2 : scaled my ey <= scaled (shr_m r2) e2).
  { eapply (shr_fexp_ge _ e1); [| | | | |exact H2]; try lia.
    eapply Z.le_trans; [exact Hge1|]. apply scaled_mono, Hr. }
  apply shr_fexp_positive in H2; [|lia..]. destruct H2 as [Hr2 He2].
  destruct (shr_m r2) as [|q|q]; try lia.
  destruct (e2 <=? emax - prec); [exact Hge2|exact I].
Qed.

Lemma iter_xO m d : Zpos (Pos.iter xO m d) = Zpos m * 2 ^ Zpos d.
Proof.
  induction d as [|d IH] using Pos.peano_ind.
  - cbn. lia.
  - rewrite Pos.iter_succ, Pos2Z.inj_xO, IH, Pos2Z.inj_succ, Z.pow_succ_r by lia.
    ring.
Qed.

(** Aligning a mantissa to a smaller exponent keeps the value. *)
Lemma shl_align_scaled m e e' :
  -1074 <= e -> -1074 <= e' ->
  scaled (Zpos (shl_align m e e').1) (shl_align m e e').2 = scaled (Zpos m) e /\
  -1074 <= (shl_align m e e').2 /\ (shl_align m e e').2 = Z.min e e'.
Proof.
  intros He He'. unfold shl_align.
  destruct (e' - e) as [|d|d] eqn:Hd; cbn [fst snd]; try (repeat split; lia).
  split; [|split; lia]. unfold scaled. rewrite iter_xO.
  replace (e + 1074) with (Z.pos d + (e' + 1074)) by lia.
  rewrite (Z.pow_add_r 2 (Z.pos d) (e' + 1074)) by lia. ring.
Qed.

Lemma binary_round_ok m e :
  -1074 <= e -> float_ok (binary_round prec emax false m e).
Proof.
  intros He. unfold binary_round.
  destruct (shl_align_scaled m e (fexp prec emax (Z.pos (digits2_pos m) + e)))
    as (_ & Hez & _); [exact He|unfold fexp, emin, prec, emax; lia|].
  destruct (shl_align _ _ _) as [mz ez]. cbn [fst snd] in Hez.
  apply binary_round_aux_ok; lia.
Qed.

Lemma binary_round_ge m e my ey :
  -1074 <= e -> 0 < my < 2 ^ 53 -> -1074 <= ey ->
  scaled my ey <= scaled (Zpos m) e ->
  match binary_round prec emax false m e with
  | S754_infinity false => True
  | S754_finite false m' e' => scaled my ey <= scaled (Zpos m') e'
  | _ => False
  end.
Proof.
  intros He Hmy Hey Hle. unfold binary_round.
  destruct (shl_align_scaled m e (fexp prec emax (Z.pos (digits2_pos m) + e)))
    as (Hval & Hez & _); [exact He|unfold fexp, emin, prec, emax; lia|].
  destruct (shl_align _ _ _) as [mz ez]. cbn [fst snd] in Hez, Hval.
  apply binary_round_aux_ge; try lia.
Qed.

Lemma add_ok x y : float_ok x -> float_ok y -> float_ok (add x y).
Proof.
  destruct x as [[]|[]| |[] mx ex], y as [[]|[]| |[] my ey]; cbn; try tauto.
  intros [Hex _] [Hey _]. apply binary_round_ok. lia.
Qed.

(** The exact sum of two finite floats, before it is rounded. *)
Lemma add_finite mx ex my ey :
  -1074 <= ex -> -1074 <= ey ->
  exists m,
    add (S754_finite false mx ex) (S754_finite false my ey)
    = binary_round prec emax false m (Z.min ex ey) /\
    scaled (Zpos m) (Z.min ex ey) = scaled (Zpos mx) ex + scaled (Zpos my) ey.
Proof.
  intros Hex Hey. unfold add, SFadd. cbn [cond_Zopp].
  destruct (shl_align_scaled mx ex (Z.min ex ey)) as (Hx & _ & Hxe); [lia..|].
  destruct (shl_align_scaled my ey (Z.min ex ey)) as (Hy & _ & Hye); [lia..|].
  exists ((shl_align mx ex (Z.min ex ey)).1 + (shl_align my ey (Z.min ex ey)).1)%positive.
  split; [reflexivity|].
  rewrite <- Hx, <- Hy, Hxe, Hye.
  replace (Z.min ex (Z.min ex ey)) with (Z.min ex ey) by lia.
  replace (Z.min ey (Z.min ex ey)) with (Z.min ex ey) by lia.
  unfold scaled. rewrite Pos2Z.inj_add. ring.
Qed.

Lemma scaled_pos m e : 0 <= scaled (Zpos m) e.
Proof. unfold scaled. apply Z.mul_nonneg_nonneg; [lia|apply Z.pow_nonneg; lia]. Qed.

Lemma float_ok_nonneg x : float_ok x -> nonneg x.
Proof. destruct x as [[]|[]| |[] m e]; cbn; tauto. Qed.

Lemma add_gt_int_finite mx ex my ey m0 e0 n :
  float_ok (S754_finite false mx ex) -> float_ok (S754_finite false my ey) ->
  float_ok (S754_finite false m0 e0) ->
  scaled (Zpos m0) e0 <= scaled (Zpos mx) ex + scaled (Zpos my) ey ->
  gt_int (S754_finite false m0 e0) n = true ->
  gt_int (add (S754_finite false mx ex) (S754_finite false my ey)) n = true.
Proof.
  intros [Hex _] [Hey _] [He0 Hm0] Hle Hgt.
  destruct (add_finite mx ex my ey Hex Hey) as (m & -> & Hval).
  assert (Hge := binary_round_ge m (Z.min ex ey) (Zpos m0) e0).
  specialize (Hge ltac:(lia) ltac:(lia) He0 ltac:(lia)).
  apply gt_int_scaled in Hgt; [|exact He0].
  assert (Hok := binary_round_ok m (Z.min ex ey) ltac:(lia)).
  destruct (binary_round prec emax false m (Z.min ex ey)) as [[]|[]| |[] m' e'];
    cbn in Hok; try tauto; try reflexivity.
  apply gt_int_scaled; [tauto|]. lia.
Qed.

(** A sum exceeds a bound as soon as one of its terms does. *)
Lemma add_gt_int_l x y n :
  float_ok x -> float_ok y -> gt_int x n = true -> gt_int (add x y) n = true.
Proof.
  intros Hx Hy Hgt.
  destruct x as [[]|[]| |[] mx ex]; cbn in Hx; try tauto.
  - (* 0.0 > n: n is negative *)
    cbn in Hgt. apply nonneg_gt_int; [|lia].
    apply add_nonneg; [exact I|apply float_ok_nonneg, Hy].
  - destruct y as [[]|[]| |[] my ey]; cbn in Hy; try tauto; reflexivity.
  - destruct y as [[]|[]| |[] my ey]; cbn in Hy; try tauto;
      try exact Hgt; try reflexivity.
    apply (add_gt_int_finite mx ex my ey mx ex); try assumption.
    pose proof (scaled_pos my ey). lia.
Qed.

Lemma add_gt_int_r x y n :
  float_ok x -> float_ok y -> gt_int y n = true -> gt_int (add x y) n = true.
Proof.
  intros Hx Hy Hgt.
  destruct y as [[]|[]| |[] my ey]; cbn in Hy; try tauto.
  - cbn in Hgt. apply nonneg_gt_int; [|lia].
    apply add_nonneg; [apply float_ok_nonneg, Hx|exact I].
  - destruct x as [[]|[]| |[] mx ex]; cbn in Hx; try tauto; reflexivity.
  - destruct x as [[]|[]| |[] mx ex]; cbn in Hx; try tauto;
      try exact Hgt; try reflexivity.
    apply (add_gt_int_finite mx ex my ey my ey); try assumption.
    pose proof (scaled_pos mx ex). lia.
Qed.
End float64_order.

(** ** Oversized entries and batches that fit *)
Section oversized.
Import CreatePdfs.

Lemma img_size_ok e : float_ok (img_size e).
Proof.
  unfold img_size. destruct (st_size e.1) as [|p] eqn:Hs; [exact I|].
  pose proof (of_int_positive (Z.of_N (N.pos p)) ltac:(lia)) as Hpos.
  destruct (Float64.of_int (Z.of_N (N.pos p))) as [[]|[]| |[] m ex];
    cbn in Hpos; try tauto; cbn; try exact I.
  apply binary_round_aux_ok; lia.
Qed.

Lemma section_size_ok s : float_ok (section_size s).
Proof.
  induction s as [|e s IH] using rev_ind; [exact I|].
  rewrite section_size_snoc. apply add_ok; [exact IH|apply img_size_ok].
Qed.

Lemma section_size_prefix_gt max_bytes p q :
  Float64.gt_int (section_size p) max_bytes = true ->
  Float64.gt_int (section_size (p ++ q)) max_bytes = true.
Proof.
  intros Hp. induction q as [|e q IH] using rev_ind; [rewrite app_nil_r; exact Hp|].
  rewrite app_assoc, section_size_snoc.
  apply add_gt_int_l; [apply section_size_ok|apply img_size_ok|exact IH].
Qed.

(** A section where an entry that is oversized on its own is alone. *)
Lemma auto_chunks_oversized max_bytes l : forall cur size,
  size = section_size cur ->
  (forall e, e ∈ cur -> Float64.gt_int (img_size e) max_bytes = true -> cur = [e]) ->
  Forall (fun s => forall e, e ∈ s ->
            Float64.gt_int (img_size e) max_bytes = true -> s = [e])
    (auto_chunks max_bytes cur size l).
Proof.
  induction l as [|e l IH]; intros cur size Hsize Hcur; cbn [auto_chunks].
  - destruct cur; cbn; repeat constructor. exact Hcur.
  - destruct (Float64.gt_int _ _ && negb (is_nil cur)) eqn:Hc.
    + constructor; [exact Hcur|]. apply IH; [reflexivity|].
      intros e' He' _. apply list_elem_of_singleton in He' as ->. reflexivity.
    + apply IH; [subst size; symmetry; apply section_size_snoc|].
      destruct cur as [|c cur].
      { intros e' He' _. apply list_elem_of_singleton in He' as ->. reflexivity. }
      cbn [is_nil negb] in Hc. rewrite andb_true_r in Hc.
      intros e' He' Hbig. exfalso.
      assert (Hgt : Float64.gt_int (Float64.add size (img_size e)) max_bytes = true);
        [|congruence].
      apply elem_of_app in He' as [He'|He'].
      * apply add_gt_int_l; [subst size; apply section_size_ok|apply img_size_ok|].
        rewrite (Hcur e' He' Hbig) in Hsize. rewrite section_size_singleton in Hsize.
        subst size. exact Hbig.
      * apply list_elem_of_singleton in He' as ->.
        apply add_gt_int_r; [subst size; apply section_size_ok|apply img_size_ok|].
        exact Hbig.
Qed.

Lemma auto_chunks_fit max_bytes l : forall cur,
  Float64.gt_int (section_size (cur ++ l)) max_bytes = false ->
  cur ++ l <> [] ->
  auto_chunks max_bytes cur (section_size cur) l = [cur ++ l].
Proof.
  induction l as [|e l IH]; intros cur Hfit Hne; cbn [auto_chunks].
  - rewrite app_nil_r in *. destruct cur; [congruence|reflexivity].
  - assert (Hgt : Float64.gt_int (Float64.add (section_size cur) (img_size e)) max_bytes
                  = false).
    { destruct (Float64.gt_int (Float64.add (section_size cur) (img_size e)) max_bytes)
        eqn:Hgt; [|reflexivity].
      rewrite <- section_size_snoc in Hgt.
      apply (section_size_prefix_gt _ _ l) in Hgt.
      rewrite <- app_assoc in Hgt. cbn [app] in Hgt. congruence. }
    rewrite Hgt. cbn [andb]. rewrite <- section_size_snoc.
    rewrite IH; rewrite <- ?app_assoc; cbn [app]; [reflexivity|exact Hfit|].
    destruct cur; discriminate.
Qed.
End oversized.

(** X14. In the automatic split, an entry whose own estimate exceeds
    [max_bytes] is always alone in its section: it is neither added to a
    section that has entries, nor followed by another entry. *)
Theorem auto_split_oversized_alone (max_bytes : Z) (images : list entry)
    (s : section) (e : entry) :
  s ∈ CreatePdfs.auto_split max_bytes images ->
  e ∈ s ->
  Float64.gt_int (CreatePdfs.img_size e) max_bytes = true ->
  s = [e].
Proof.
  intros Hs He Hbig.
  assert (H := auto_chunks_oversized max_bytes images [] Float64.zero eq_refl).
  rewrite <- auto_split_chunks in H. rewrite Forall_forall in H.
  apply (H ltac:(intros ? Hin; inversion Hin) s Hs e He Hbig).
Qed.

Lemma auto_split_oversized_alone_witness :
  let small := (Path "a.jpg" 100, PInt 0) in
  let big := (Path "b.jpg" 5000, PInt 0) in
  let last := (Path "c.jpg" 100, PInt 0) in
  [big] ∈ CreatePdfs.auto_split 1000 [small; big; last] /\
  Float64.gt_int (CreatePdfs.img_size big) 1000 = true /\
  [big] = [big].
Proof.
  intros small big last.
  assert (Hs : [big] ∈ CreatePdfs.auto_split 1000 [small; big; last])
    by (vm_compute; repeat constructor).
  split; [exact Hs|]. split; [reflexivity|].
  apply (auto_split_oversized_alone 1000 [small; big; last] [big] big Hs);
    [constructor|reflexivity].
Defined.

(** X15. When the size of the whole sequence of entries, accumulated as
    the split accumulates it, is at most [max_bytes], the automatic split
    makes one section of all the entries. *)
Theorem auto_split_fits (max_bytes : Z) (images : list entry) :
  images <> [] ->
  Float64.le_int (section_size images) max_bytes = true ->
  CreatePdfs.auto_split max_bytes images = [images].
Proof.
  intros Hne Hle. rewrite auto_split_chunks.
  apply (auto_chunks_fit max_bytes images []); [|exact Hne]. cbn [app].
  destruct (Float64.gt_int (section_size images) max_bytes) eqn:Hgt; [|reflexivity].
  apply gt_le_int_excl in Hgt. congruence.
Qed.

Lemma auto_split_fits_witness :
  let a := (Path "a.jpg" 400, PInt 0) in
  let b := (Path "b.jpg" 500, PInt 90) in
  CreatePdfs.auto_split 1000 [a; b] = [[a; b]].
Proof.
  intros a b. apply (auto_split_fits 1000 [a; b]); [discriminate|reflexivity].
Defined.
